(** * Minesweeper and its knowledge-based player (minesweeper.py)

    A shallow embedding of [src/minesweeper/minesweeper.py]: the board
    class [Minesweeper], the logical [Sentence] and the player
    [MinesweeperAI].  Python sets of cells are finite sets [gset Cell],
    Python integers are [Z], the list [self.knowledge] is a Rocq list
    whose positions stand for the identity of the [Sentence] objects it
    holds (every object is appended once and never aliased), and the
    methods that mutate [self] are state transformers. *)

From stdpp Require Import base decidable option list gmap sets.
From Stdlib Require Import ZArith Lia.

Local Open Scope Z_scope.
#[local] Set Warnings "-clear-no-such-hyp".

(** ** Cells and Python list indexing *)

Definition Cell : Type := (Z * Z)%type.

Inductive PyError : Type :=
| IndexError.

Inductive result (A : Type) : Type :=
| Ok (a : A)
| Raise (e : PyError).
Arguments Ok {A} a.
Arguments Raise {A} e.

#[global] Instance result_bind : MBind result := λ A B k r,
  match r with
  | Ok a => k a
  | Raise e => Raise e
  end.

(** [l[i]] in Python: a negative index counts from the end of the list,
    an index outside [-len, len) raises [IndexError]. *)
Definition py_index {A : Type} (l : list A) (i : Z) : result A :=
  let n := Z.of_nat (length l) in
  if decide (0 ≤ i < n) then
    match l !! Z.to_nat i with Some a => Ok a | None => Raise IndexError end
  else if decide (- n ≤ i < 0) then
    match l !! Z.to_nat (n + i) with Some a => Ok a | None => Raise IndexError end
  else Raise IndexError.

(** ** class Minesweeper *)

Module Minesweeper.

Record t : Type := mk {
  height : Z;
  width : Z;
  board : list (list bool)
}.

(** What [__init__] establishes: [height] rows of [width] booleans. *)
Definition well_formed (g : t) : Prop :=
  Z.of_nat (length (board g)) = height g ∧
  Forall (λ row, Z.of_nat (length row) = width g) (board g).

(** [is_mine]: [i, j = cell; return self.board[i][j]]. *)
Definition is_mine (g : t) (cell : Cell) : result bool :=
  let '(i, j) := cell in
  row ← py_index (board g) i;
  py_index row j.

(** [range(a - 1, a + 2)]. *)
Definition around (a : Z) : list Z := [a - 1; a; a + 1].

(** One iteration of the inner loop of [nearby_mines]. *)
Definition nearby_step (g : t) (cell : Cell) (i j : Z) (count : Z) : result Z :=
  if decide ((i, j) = cell) then Ok count
  else if decide ((0 ≤ i < height g) ∧ (0 ≤ j < width g)) then
    row ← py_index (board g) i;
    b ← py_index row j;
    Ok (if b : bool then count + 1 else count)
  else Ok count.

Fixpoint nearby_cols (g : t) (cell : Cell) (i : Z) (js : list Z) (count : Z)
  : result Z :=
  match js with
  | [] => Ok count
  | j :: js' =>
      count' ← nearby_step g cell i j count;
      nearby_cols g cell i js' count'
  end.

Fixpoint nearby_rows (g : t) (cell : Cell) (rows : list Z) (count : Z)
  : result Z :=
  match rows with
  | [] => Ok count
  | i :: rows' =>
      count' ← nearby_cols g cell i (around (snd cell)) count;
      nearby_rows g cell rows' count'
  end.

(** [nearby_mines]: the two nested [range] loops, starting from 0. *)
Definition nearby_mines (g : t) (cell : Cell) : result Z :=
  nearby_rows g cell (around (fst cell)) 0.

(** The whole object: the grid together with the two sets that
    [__init__] creates. *)
Record game : Type := mk_game {
  grid : t;
  mines : gset Cell;
  mines_found : gset Cell
}.

(** How [__init__] can end. *)
Inductive outcome : Type :=
| Built (g : game)
| ValueError
| Crashed (e : PyError)
| Unfinished.

(** [random.randrange(n)]: a value of [0, n), here the one that the raw
    draw [r] picks; [None] is the [ValueError] raised for [n <= 0]. *)
Definition randrange (r : nat) (n : Z) : option Z :=
  if decide (0 < n) then Some (Z.of_nat r `mod` n) else None.

(** Lines 18-23: [height] rows, each filled by [width] appends. *)
Definition empty_row (width : Z) : list bool :=
  foldl (λ row _, row ++ [false]) [] (seqZ 0 width).

Definition empty_board (height width : Z) : list (list bool) :=
  foldl (λ board _, board ++ [empty_row width]) [] (seqZ 0 height).

(** [self.board[i][j] = True] for indices that [randrange] returned. *)
Definition set_mine (board : list (list bool)) (i j : Z)
    : list (list bool) :=
  match board !! Z.to_nat i with
  | Some row => <[Z.to_nat i := <[Z.to_nat j := true]> row]> board
  | None => board
  end.

(** Line 30-31. *)
Definition add_mine (i j : Z) (g : game) : game :=
  {| grid := {| height := height (grid g); width := width (grid g);
                board := set_mine (board (grid g)) i j |};
     mines := {[ (i, j) ]} ∪ mines g;
     mines_found := mines_found g |}.

(** The loop of lines 26-31, fed with the raw draws of the random
    generator, two for each iteration. *)
Fixpoint place (draws : list (nat * nat)) (target : Z) (g : game)
    : outcome :=
  if decide (Z.of_nat (size (mines g)) = target) then Built g
  else
    match draws with
    | [] => Unfinished
    | (ri, rj) :: draws' =>
        match randrange ri (height (grid g)) with
        | None => ValueError
        | Some i =>
            match randrange rj (width (grid g)) with
            | None => ValueError
            | Some j =>
                match is_mine (grid g) (i, j) with
                | Raise e => Crashed e
                | Ok true => place draws' target g
                | Ok false => place draws' target (add_mine i j g)
                end
            end
        end
    end.

(** [__init__(height, width, mines)]. *)
Definition init (draws : list (nat * nat)) (height width mines : Z)
    : outcome :=
  place draws mines
    {| grid := {| height := height; width := width;
                  board := empty_board height width |};
       mines := ∅; mines_found := ∅ |}.

(** [won]. *)
Definition won (g : game) : bool :=
  bool_decide (mines_found g = mines g).

End Minesweeper.

(** ** class Sentence *)

Module Sentence.

Record t : Type := mk {
  cells : gset Cell;
  count : Z
}.

(** [len(self.cells)]. *)
Definition len (s : t) : Z := Z.of_nat (size (cells s)).

(** [__eq__]. *)
Definition eqb (s o : t) : bool :=
  bool_decide (cells s = cells o) && bool_decide (count s = count o).

Definition known_mines (s : t) : gset Cell :=
  if decide (len s = count s ∧ count s ≠ 0) then cells s else ∅.

Definition known_safes (s : t) : gset Cell :=
  if decide (count s = 0) then cells s else ∅.

Definition mark_mine (cell : Cell) (s : t) : t :=
  if decide (cell ∈ cells s)
  then {| cells := cells s ∖ {[cell]}; count := count s - 1 |}
  else s.

Definition mark_safe (cell : Cell) (s : t) : t :=
  if decide (cell ∈ cells s)
  then {| cells := cells s ∖ {[cell]}; count := count s |}
  else s.

End Sentence.

(** ** class MinesweeperAI *)

Module MinesweeperAI.

Record t : Type := mk {
  height : Z;
  width : Z;
  moves_made : gset Cell;
  mines : gset Cell;
  safes : gset Cell;
  knowledge : list Sentence.t
}.

(** [__init__]. *)
Definition init (h w : Z) : t :=
  {| height := h; width := w; moves_made := ∅; mines := ∅; safes := ∅;
     knowledge := [] |}.

Definition mark_mine (cell : Cell) (st : t) : t :=
  {| height := height st; width := width st;
     moves_made := moves_made st;
     mines := {[cell]} ∪ mines st;
     safes := safes st;
     knowledge := Sentence.mark_mine cell <$> knowledge st |}.

Definition mark_safe (cell : Cell) (st : t) : t :=
  {| height := height st; width := width st;
     moves_made := moves_made st;
     mines := mines st;
     safes := {[cell]} ∪ safes st;
     knowledge := Sentence.mark_safe cell <$> knowledge st |}.

(** [for cell in X: self.mark_mine(cell)] for a set [X] that the loop
    does not mutate (a local set or a [.copy()]). *)
Definition mark_mines (X : gset Cell) (st : t) : t :=
  foldl (λ st cell, mark_mine cell st) st (elements X).

Definition mark_safes (X : gset Cell) (st : t) : t :=
  foldl (λ st cell, mark_safe cell st) st (elements X).

(** The loops at lines 205-212: [k] and [m] range over the two-element
    tuples [(cell[0]-1, cell[0]+2)] and [(cell[1]-1, cell[1]+2)]. *)
Definition neighbor_step (st : t) (cell : Cell) (k m : Z)
    (neighbors : gset Cell) : gset Cell :=
  if decide (0 ≤ k < height st ∧ 0 ≤ m < width st) then
    if decide ((k, m) ∉ safes st) then
      if decide ((k, m) ∉ mines st) then
        if decide ((k, m) = cell) then neighbors
        else {[(k, m)]} ∪ neighbors
      else neighbors
    else neighbors
  else neighbors.

Definition neighbors_of (st : t) (cell : Cell) : gset Cell :=
  foldl (λ nb k,
           foldl (λ nb m, neighbor_step st cell k m nb) nb
                 [snd cell - 1; snd cell + 2])
        ∅ [fst cell - 1; fst cell + 2].

(** [self.knowledge.append(x)]. *)
Definition append (x : Sentence.t) (st : t) : t :=
  {| height := height st; width := width st;
     moves_made := moves_made st; mines := mines st; safes := safes st;
     knowledge := knowledge st ++ [x] |}.

(** Run [f] on the object at position [i] of [self.knowledge]. *)
Definition with_sentence (i : nat) (st : t) (f : Sentence.t → t) : t :=
  match knowledge st !! i with
  | Some x => f x
  | None => st
  end.

(** Lines 225-227 for the sentence at position [i]. *)
Definition visit_mines (i : nat) (st : t) : t :=
  with_sentence i st (λ sentence,
    if decide (Sentence.known_mines sentence ≠ ∅)
    then mark_mines (Sentence.known_mines sentence) st
    else st).

(** Lines 228-230. *)
Definition visit_safes (i : nat) (st : t) : t :=
  with_sentence i st (λ sentence,
    if decide (Sentence.known_safes sentence ≠ ∅)
    then mark_safes (Sentence.known_safes sentence) st
    else st).

(** Lines 231-242; [s] is the position of the new sentence. *)
Definition visit_subset (s i : nat) (st : t) : t :=
  with_sentence i st (λ sentence,
  with_sentence s st (λ snew,
    if Sentence.eqb sentence snew then st
    else
      let a := Sentence.cells sentence ∖ Sentence.cells snew in
      let b := Sentence.cells snew ∩ Sentence.cells sentence in
      let c := Sentence.count sentence - Sentence.count snew in
      if decide (Sentence.cells snew ⊆ Sentence.cells sentence) then
        if decide (c > 0) then
          if decide (Sentence.count snew ≠ 0 ∨ Sentence.count sentence = 0)
          then mark_safes b st
          else append (Sentence.mk a c) st
        else st
      else st)).

(** One iteration of [for sentence in self.knowledge]. *)
Definition visit (s i : nat) (st : t) : t :=
  visit_subset s i (visit_safes i (visit_mines i st)).

(** The [for] loop over the list that its body appends to: Python's
    list iterator keeps an index and stops when the index reaches the
    current length.  [None] is fuel exhaustion. *)
Fixpoint scan (fuel : nat) (s i : nat) (st : t) : option t :=
  match fuel with
  | O => None
  | S fuel' =>
      if decide (i < length (knowledge st))%nat
      then scan fuel' s (S i) (visit s i st)
      else Some st
  end.

(** Lines 214-242, from the set [neighbors] on. *)
Definition conclude (fuel : nat) (neighbors : gset Cell) (count : Z)
    (st : t) : option t :=
  let neighbors_count := count - Z.of_nat (size (neighbors ∩ mines st)) in
  let st1 := if decide (neighbors_count = 0)
             then mark_safes neighbors st else st in
  let st2 := if decide (neighbors_count = Z.of_nat (size neighbors))
             then mark_mines neighbors st1 else st1 in
  let s := length (knowledge st2) in
  scan fuel s 0 (append (Sentence.mk neighbors neighbors_count) st2).

Definition add_move (cell : Cell) (st : t) : t :=
  {| height := height st; width := width st;
     moves_made := {[cell]} ∪ moves_made st;
     mines := mines st; safes := safes st; knowledge := knowledge st |}.

Definition add_knowledge (fuel : nat) (cell : Cell) (count : Z) (st : t)
    : option t :=
  let st0 := mark_safe cell (add_move cell st) in
  conclude fuel (neighbors_of st0 cell) count st0.

(** [A and B] on two sets: [A] when [A] is empty, else [B]. *)
Definition py_and (A B : gset Cell) : gset Cell :=
  if decide (A = ∅) then A else B.

(** [range(lo, hi)]. *)
Definition py_range (lo hi : Z) : list Z := seqZ lo (hi - lo).

(** Lines 273-278. *)
Definition possible_moves (st : t) : list Cell :=
  f ← py_range 0 (height st - 1);
  g ← py_range 0 (width st - 1);
  if decide ((f, g) ∉ py_and (moves_made st) (mines st))
  then [(f, g)] else [].

(** [random.choice(l)] for a non-empty [l], the draw being [rnd]. *)
Definition choice {A : Type} (rnd : nat) (l : list A) : option A :=
  l !! (rnd `mod` length l)%nat.

(** [make_random_move]; [None] is Python's [None]. *)
Definition make_random_move (rnd : nat) (st : t) : option Cell :=
  if decide (length (possible_moves st) ≠ 0%nat)
  then choice rnd (possible_moves st)
  else None.

(** The loop of lines 257-260: it returns at the first cell of [safes]
    that is not in [moves_made], [random.choice] being applied to the
    list that holds this one cell.  [order] is the order in which
    Python iterates over the set. *)
Fixpoint safe_move_loop (rnd : nat) (st : t) (order : list Cell)
    (safe_moves : list Cell) : option Cell :=
  match order with
  | [] => None
  | cell :: order' =>
      if decide (cell ∉ moves_made st)
      then choice rnd (safe_moves ++ [cell])
      else safe_move_loop rnd st order' safe_moves
  end.

(** [make_safe_move]; after the loop [safe_moves is None] is false and
    the function ends without a [return]: Python's [None]. *)
Definition make_safe_move (order : list Cell) (rnd : nat) (st : t)
    : option Cell :=
  safe_move_loop rnd st order [].

End MinesweeperAI.

(** A short name for the player's module. *)
Module AI := MinesweeperAI.

(** ** A driver: sequences of calls on one agent *)

Inductive op : Type :=
| MarkMine (cell : Cell)
| MarkSafe (cell : Cell)
| AddKnowledge (cell : Cell) (count : Z).

Definition run_op (fuel : nat) (o : op) (st : AI.t) : option AI.t :=
  match o with
  | MarkMine cell => Some (AI.mark_mine cell st)
  | MarkSafe cell => Some (AI.mark_safe cell st)
  | AddKnowledge cell count => AI.add_knowledge fuel cell count st
  end.

Fixpoint run (fuel : nat) (ops : list op) (st : AI.t) : option AI.t :=
  match ops with
  | [] => Some st
  | o :: ops' =>
      match run_op fuel o st with
      | Some st' => run fuel ops' st'
      | None => None
      end
  end.

(** ** Notions used by the statements and proofs *)

(** What a run of marking calls does to one sentence. *)
Definition cross_out_safe (l : list Cell) (s : Sentence.t) : Sentence.t :=
  foldl (λ s c, Sentence.mark_safe c s) s l.

Definition cross_out_mine (l : list Cell) (s : Sentence.t) : Sentence.t :=
  foldl (λ s c, Sentence.mark_mine c s) s l.

(** [st'] comes after [st]: the three sets have only grown, and every
    sentence object of [st] is still in the list, at its position, with
    no cell added to it. *)
Definition extends (st st' : AI.t) : Prop :=
  (length (AI.knowledge st) ≤ length (AI.knowledge st'))%nat ∧
  AI.moves_made st ⊆ AI.moves_made st' ∧
  AI.safes st ⊆ AI.safes st' ∧
  AI.mines st ⊆ AI.mines st' ∧
  ∀ (j : nat) (x : Sentence.t), AI.knowledge st !! j = Some x →
    ∃ x', AI.knowledge st' !! j = Some x' ∧
          Sentence.cells x' ⊆ Sentence.cells x.

(** No cell of the sentence is already known to be safe or a mine. *)
Definition clean (st : AI.t) (x : Sentence.t) : Prop :=
  Sentence.cells x ## AI.safes st ∪ AI.mines st.

Definition all_clean (st : AI.t) : Prop :=
  ∀ (j : nat) (x : Sentence.t), AI.knowledge st !! j = Some x → clean st x.

Definition separated (st : AI.t) : Prop := AI.safes st ## AI.mines st.

(** Between its creation and the iteration that visits it, the new
    sentence [snew] (last in the list, at position [s]) may hold cells
    that lines 215-220 have just marked: all of them safe with a count of
    0, or all of them mines with a count equal to their number.  No
    other sentence shares a cell with it. *)
Definition waiting (s : nat) (st : AI.t) (snew : Sentence.t) : Prop :=
  AI.knowledge st !! s = Some snew ∧
  length (AI.knowledge st) = S s ∧
  Sentence.cells snew ≠ ∅ ∧
  ∀ (j : nat) (x : Sentence.t), AI.knowledge st !! j = Some x → j ≠ s →
    clean st x ∧ Sentence.cells x ## Sentence.cells snew.

Definition safe_kind (st : AI.t) (snew : Sentence.t) : Prop :=
  Sentence.count snew = 0 ∧ Sentence.cells snew ## AI.mines st.

Definition mine_kind (st : AI.t) (snew : Sentence.t) : Prop :=
  Sentence.len snew = Sentence.count snew ∧
  Sentence.cells snew ## AI.safes st.

(** The invariant of the loop at the start of iteration [i]. *)
Definition tidy (s i : nat) (st : AI.t) : Prop :=
  all_clean st ∨
  ((i ≤ s)%nat ∧ ∃ snew, waiting s st snew ∧
                         (safe_kind st snew ∨ mine_kind st snew)).

(** The same after lines 225-227 of iteration [i]. *)
Definition tidy_mid (s i : nat) (st : AI.t) : Prop :=
  all_clean st ∨
  ∃ snew, waiting s st snew ∧
          (((i < s)%nat ∧ (safe_kind st snew ∨ mine_kind st snew)) ∨
           (i = s ∧ safe_kind st snew)).

(** The four cells that lines 205-206 enumerate. *)
Definition corners (cell : Cell) : list Cell :=
  [(fst cell - 1, snd cell - 1); (fst cell - 1, snd cell + 2);
   (fst cell + 2, snd cell - 1); (fst cell + 2, snd cell + 2)].

Definition in_bounds (st : AI.t) (c : Cell) : Prop :=
  0 ≤ fst c < AI.height st ∧ 0 ≤ snd c < AI.width st.

(** The state in which the loop of line 224 starts: lines 214-222. *)
Definition before_scan (neighbors : gset Cell) (n : Z) (st : AI.t) : AI.t :=
  let st1 := if decide (n = 0) then AI.mark_safes neighbors st else st in
  let st2 := if decide (n = Z.of_nat (size neighbors))
             then AI.mark_mines neighbors st1 else st1 in
  AI.append (Sentence.mk neighbors n) st2.

(** The calls respect what the game guarantees: no cell known to be
    safe is marked as a mine, no known mine is marked safe or revealed. *)
Definition guarded (o : op) (st : AI.t) : Prop :=
  match o with
  | MarkMine cell => cell ∉ AI.safes st
  | MarkSafe cell => cell ∉ AI.mines st
  | AddKnowledge cell _ => cell ∉ AI.mines st
  end.

Fixpoint all_guarded (fuel : nat) (ops : list op) (st : AI.t) : Prop :=
  match ops with
  | [] => True
  | o :: ops' =>
      guarded o st ∧
      match run_op fuel o st with
      | Some st' => all_guarded fuel ops' st'
      | None => True
      end
  end.

(** The board entry at row [r] and column [c], both counted from 0. *)
Definition mine_at (g : Minesweeper.t) (r c : Z) : bool :=
  match Minesweeper.board g !! Z.to_nat r with
  | Some row => default false (row !! Z.to_nat c)
  | None => false
  end.

(** What one cell [c] of the block around [cell] adds to the count. *)
Definition tally (g : Minesweeper.t) (cell c : Cell) : Z :=
  if decide (c = cell) then 0
  else if decide ((0 ≤ fst c < Minesweeper.height g) ∧
                  (0 ≤ snd c < Minesweeper.width g))
       then (if mine_at g (fst c) (snd c) then 1 else 0)
       else 0.

(** The 3×3 block centred on [cell], in the order of the loops. *)
Definition block (cell : Cell) : list Cell :=
  i ← Minesweeper.around (fst cell);
  j ← Minesweeper.around (snd cell);
  [(i, j)].

Definition block_count (g : Minesweeper.t) (cell : Cell) : Z :=
  foldl (λ n c, n + tally g cell c) 0 (block cell).

(** A 2×2 board with mines at (0,0) and (1,1). *)
Definition two_by_two : Minesweeper.t :=
  Minesweeper.mk 2 2 [[true; false]; [false; true]].

(** The agent of a 2×5 game after [add_knowledge((1,1), 1)]. *)
Definition lone_sentence : Sentence.t := Sentence.mk {[ (0, 0); (0, 3) ]} 1.

Definition lone_state : AI.t :=
  AI.mk 2 5 {[ (1, 1) ]} ∅ {[ (1, 1) ]} [lone_sentence].

(** Closed facts about concrete runs are settled by evaluation. *)
Ltac evaluate := vm_compute; reflexivity.
Ltac by_decision := apply (bool_decide_unpack _); vm_compute; exact I.

(** What marking and inference never touch. *)
Definition frame (st : AI.t) : Z * Z * gset Cell :=
  (AI.height st, AI.width st, AI.moves_made st).

(** What marking the cells of [X] as mines does to one sentence. *)
Definition without_mines (X : gset Cell) (s : Sentence.t) : Sentence.t :=
  Sentence.mk (Sentence.cells s ∖ X)
              (Sentence.count s - Z.of_nat (size (Sentence.cells s ∩ X))).

Definition without_safes (X : gset Cell) (s : Sentence.t) : Sentence.t :=
  Sentence.mk (Sentence.cells s ∖ X) (Sentence.count s).

(** The sentence says the truth about the mine set [M]: exactly [count]
    of its cells are mines. *)
Definition holds (M : gset Cell) (s : Sentence.t) : Prop :=
  Z.of_nat (size (Sentence.cells s ∩ M)) = Sentence.count s.

(** All that the agent believes is true of the mine set [M]. *)
Definition sound (M : gset Cell) (st : AI.t) : Prop :=
  AI.mines st ⊆ M ∧ AI.safes st ## M ∧
  ∀ (j : nat) (x : Sentence.t), AI.knowledge st !! j = Some x → holds M x.

(** What the loop of [__init__] keeps true: the grid has its shape, and
    its [True] entries are exactly the cells of [mines]. *)
Definition placed (g : Minesweeper.game) : Prop :=
  Minesweeper.well_formed (Minesweeper.grid g) ∧
  ∀ i j : Z,
    (i, j) ∈ Minesweeper.mines g ↔
    (0 ≤ i < Minesweeper.height (Minesweeper.grid g)) ∧
    (0 ≤ j < Minesweeper.width (Minesweeper.grid g)) ∧
    mine_at (Minesweeper.grid g) i j = true.

(** [c] is one of the up to eight cells around [cell]. *)
Definition next_to (cell c : Cell) : Prop :=
  c ≠ cell ∧ (fst cell - 1 ≤ fst c ≤ fst cell + 1) ∧
  (snd cell - 1 ≤ snd c ≤ snd cell + 1).

#[global] Instance next_to_dec (cell c : Cell) : Decision (next_to cell c) :=
  ltac:(unfold next_to; exact _).

(** The nine offsets of the block, in the order of the loops. *)
Definition offsets : list (Z * Z) :=
  [(-1, -1); (-1, 0); (-1, 1); (0, -1); (0, 0); (0, 1); (1, -1); (1, 0);
   (1, 1)].

Definition shift (cell : Cell) (o : Z * Z) : Cell :=
  (fst cell + fst o, snd cell + snd o).

(** All the cells of an [h] by [w] board. *)
Definition all_cells (h w : Z) : list Cell :=
  i ← seqZ 0 h; j ← seqZ 0 w; [(i, j)].

(** ** Marking a whole set of cells *)

Section marks.
Implicit Types (s : Sentence.t) (st : AI.t) (c : Cell) (X : gset Cell)
  (l : list Cell).

Lemma mark_safe_cells c s :
  Sentence.cells (Sentence.mark_safe c s) = Sentence.cells s ∖ {[c]}.
Proof.
  unfold Sentence.mark_safe. case_decide; simpl; [done | set_solver].
Qed.

Lemma mark_mine_cells c s :
  Sentence.cells (Sentence.mark_mine c s) = Sentence.cells s ∖ {[c]}.
Proof.
  unfold Sentence.mark_mine. case_decide; simpl; [done | set_solver].
Qed.

Lemma mark_safe_count c s :
  Sentence.count (Sentence.mark_safe c s) = Sentence.count s.
Proof. unfold Sentence.mark_safe. by case_decide. Qed.

Lemma cross_out_safe_cells l s :
  Sentence.cells (cross_out_safe l s) = Sentence.cells s ∖ list_to_set l.
Proof.
  revert s. induction l as [|c l IH]; intros s; simpl.
  - set_solver.
  - unfold cross_out_safe in *. simpl. rewrite IH, mark_safe_cells.
    set_solver.
Qed.

Lemma cross_out_mine_cells l s :
  Sentence.cells (cross_out_mine l s) = Sentence.cells s ∖ list_to_set l.
Proof.
  revert s. induction l as [|c l IH]; intros s; simpl.
  - set_solver.
  - unfold cross_out_mine in *. simpl. rewrite IH, mark_mine_cells.
    set_solver.
Qed.

Lemma cross_out_safe_count l s :
  Sentence.count (cross_out_safe l s) = Sentence.count s.
Proof.
  revert s. induction l as [|c l IH]; intros s; [done|].
  unfold cross_out_safe in *. simpl. by rewrite IH, mark_safe_count.
Qed.

Lemma cross_out_safe_id l s :
  (∀ c, c ∈ l → c ∉ Sentence.cells s) → cross_out_safe l s = s.
Proof.
  revert s. induction l as [|c l IH]; intros s H; [done|].
  unfold cross_out_safe in *. simpl.
  assert (Sentence.mark_safe c s = s) as ->.
  { unfold Sentence.mark_safe. case_decide; [|done].
    exfalso. eapply H; [left | done]. }
  apply IH. intros c' Hc'. apply H. by right.
Qed.

Lemma cross_out_mine_id l s :
  (∀ c, c ∈ l → c ∉ Sentence.cells s) → cross_out_mine l s = s.
Proof.
  revert s. induction l as [|c l IH]; intros s H; [done|].
  unfold cross_out_mine in *. simpl.
  assert (Sentence.mark_mine c s = s) as ->.
  { unfold Sentence.mark_mine. case_decide; [|done].
    exfalso. eapply H; [left | done]. }
  apply IH. intros c' Hc'. apply H. by right.
Qed.

Lemma foldl_mark_safe l st :
  foldl (λ st c, AI.mark_safe c st) st l =
  {| AI.height := AI.height st; AI.width := AI.width st;
     AI.moves_made := AI.moves_made st; AI.mines := AI.mines st;
     AI.safes := list_to_set l ∪ AI.safes st;
     AI.knowledge := cross_out_safe l <$> AI.knowledge st |}.
Proof.
  revert st. induction l as [|c l IH]; intros st; simpl.
  - destruct st; simpl. f_equal; [set_solver|].
    unfold cross_out_safe. simpl. by rewrite list_fmap_id.
  - rewrite IH. unfold AI.mark_safe; simpl. f_equal; [set_solver|].
    by rewrite <- list_fmap_compose.
Qed.

Lemma foldl_mark_mine l st :
  foldl (λ st c, AI.mark_mine c st) st l =
  {| AI.height := AI.height st; AI.width := AI.width st;
     AI.moves_made := AI.moves_made st;
     AI.mines := list_to_set l ∪ AI.mines st;
     AI.safes := AI.safes st;
     AI.knowledge := cross_out_mine l <$> AI.knowledge st |}.
Proof.
  revert st. induction l as [|c l IH]; intros st; simpl.
  - destruct st; simpl. f_equal; [set_solver|].
    unfold cross_out_mine. simpl. by rewrite list_fmap_id.
  - rewrite IH. unfold AI.mark_mine; simpl. f_equal; [set_solver|].
    by rewrite <- list_fmap_compose.
Qed.

(** The closed form of the two marking loops. *)
Lemma mark_safes_eq X st :
  AI.mark_safes X st =
  {| AI.height := AI.height st; AI.width := AI.width st;
     AI.moves_made := AI.moves_made st; AI.mines := AI.mines st;
     AI.safes := X ∪ AI.safes st;
     AI.knowledge := cross_out_safe (elements X) <$> AI.knowledge st |}.
Proof.
  unfold AI.mark_safes. rewrite foldl_mark_safe.
  by rewrite list_to_set_elements_L.
Qed.

Lemma mark_mines_eq X st :
  AI.mark_mines X st =
  {| AI.height := AI.height st; AI.width := AI.width st;
     AI.moves_made := AI.moves_made st;
     AI.mines := X ∪ AI.mines st;
     AI.safes := AI.safes st;
     AI.knowledge := cross_out_mine (elements X) <$> AI.knowledge st |}.
Proof.
  unfold AI.mark_mines. rewrite foldl_mark_mine.
  by rewrite list_to_set_elements_L.
Qed.

Lemma cross_out_safe_elements X s :
  Sentence.cells (cross_out_safe (elements X) s) = Sentence.cells s ∖ X.
Proof. by rewrite cross_out_safe_cells, list_to_set_elements_L. Qed.

Lemma cross_out_mine_elements X s :
  Sentence.cells (cross_out_mine (elements X) s) = Sentence.cells s ∖ X.
Proof. by rewrite cross_out_mine_cells, list_to_set_elements_L. Qed.

Lemma cross_out_safe_disjoint X s :
  Sentence.cells s ## X → cross_out_safe (elements X) s = s.
Proof.
  intros H. apply cross_out_safe_id. intros c Hc%elem_of_elements.
  set_solver.
Qed.

Lemma cross_out_mine_disjoint X s :
  Sentence.cells s ## X → cross_out_mine (elements X) s = s.
Proof.
  intros H. apply cross_out_mine_id. intros c Hc%elem_of_elements.
  set_solver.
Qed.

End marks.

(** ** The knowledge base only grows *)

Section growth.
Implicit Types (st : AI.t) (X : gset Cell).

Lemma extends_refl st : extends st st.
Proof. repeat split; try done. intros j x H. by exists x. Qed.

Lemma extends_trans st1 st2 st3 :
  extends st1 st2 → extends st2 st3 → extends st1 st3.
Proof.
  intros (L1 & M1 & S1 & N1 & K1) (L2 & M2 & S2 & N2 & K2).
  repeat split; [lia | set_solver.. |].
  intros j x Hx. destruct (K1 j x Hx) as (x' & Hx' & Hsub).
  destruct (K2 j x' Hx') as (x'' & Hx'' & Hsub').
  exists x''. split; [done | set_solver].
Qed.

Lemma extends_mark_safes X st : extends st (AI.mark_safes X st).
Proof.
  rewrite mark_safes_eq. repeat split; simpl; [|set_solver..|].
  - by rewrite length_fmap.
  - intros j x Hx. eexists. rewrite list_lookup_fmap, Hx. split; [done|].
    rewrite cross_out_safe_elements. set_solver.
Qed.

Lemma extends_mark_mines X st : extends st (AI.mark_mines X st).
Proof.
  rewrite mark_mines_eq. repeat split; simpl; [|set_solver..|].
  - by rewrite length_fmap.
  - intros j x Hx. eexists. rewrite list_lookup_fmap, Hx. split; [done|].
    rewrite cross_out_mine_elements. set_solver.
Qed.

Lemma extends_mark_safe c st : extends st (AI.mark_safe c st).
Proof.
  repeat split; simpl; [|set_solver..|].
  - by rewrite length_fmap.
  - intros j x Hx. eexists. rewrite list_lookup_fmap, Hx. split; [done|].
    rewrite mark_safe_cells. set_solver.
Qed.

Lemma extends_mark_mine c st : extends st (AI.mark_mine c st).
Proof.
  repeat split; simpl; [|set_solver..|].
  - by rewrite length_fmap.
  - intros j x Hx. eexists. rewrite list_lookup_fmap, Hx. split; [done|].
    rewrite mark_mine_cells. set_solver.
Qed.

Lemma extends_append x st : extends st (AI.append x st).
Proof.
  repeat split; simpl; [|set_solver..|].
  - rewrite length_app. lia.
  - intros j y Hy. exists y. split; [|done].
    by apply lookup_app_l_Some.
Qed.

Lemma extends_add_move c st : extends st (AI.add_move c st).
Proof.
  repeat split; simpl; [lia|set_solver..|].
  intros j y Hy. by exists y.
Qed.

Lemma extends_with_sentence i st f :
  (∀ x, extends st (f x)) → extends st (AI.with_sentence i st f).
Proof.
  intros H. unfold AI.with_sentence.
  destruct (AI.knowledge st !! i); [done | apply extends_refl].
Qed.

Lemma extends_visit s i st : extends st (AI.visit s i st).
Proof.
  unfold AI.visit.
  eapply extends_trans; [|eapply extends_trans]; last first.
  - unfold AI.visit_subset.
    apply extends_with_sentence; intros x.
    apply extends_with_sentence; intros y.
    repeat case_match;
      auto using extends_refl, extends_mark_safes, extends_append.
  - unfold AI.visit_safes. apply extends_with_sentence; intros x.
    case_decide; auto using extends_refl, extends_mark_safes.
  - unfold AI.visit_mines. apply extends_with_sentence; intros x.
    case_decide; auto using extends_refl, extends_mark_mines.
Qed.

(** An invariant of the loop body holds when the loop ends. *)
Lemma scan_invariant (J : nat → AI.t → Prop) s :
  (∀ i st, J i st → (i < length (AI.knowledge st))%nat →
           J (S i) (AI.visit s i st)) →
  ∀ fuel i st st', J i st → AI.scan fuel s i st = Some st' →
    ∃ i', J i' st' ∧ (length (AI.knowledge st') ≤ i')%nat.
Proof.
  intros Hstep fuel. induction fuel as [|fuel IH]; intros i st st' HJ Hscan.
  - discriminate.
  - simpl in Hscan. case_decide.
    + eapply IH; [|exact Hscan]. by apply Hstep.
    + injection Hscan as <-. exists i. split; [done | lia].
Qed.

Lemma extends_scan fuel s i st st' :
  AI.scan fuel s i st = Some st' → extends st st'.
Proof.
  intros H.
  assert (∃ i', extends st st' ∧ (length (AI.knowledge st') ≤ i')%nat)
    as (i' & ? & _); [|done].
  eapply (scan_invariant (λ _ st1, extends st st1));
    [|apply extends_refl|exact H].
  intros i0 st1 H1 _. eapply extends_trans; [done | apply extends_visit].
Qed.

Lemma extends_conclude fuel X count st st' :
  AI.conclude fuel X count st = Some st' → extends st st'.
Proof.
  unfold AI.conclude. intros H%extends_scan.
  eapply extends_trans; [|exact H]. clear H.
  eapply extends_trans; [|apply extends_append].
  repeat case_decide;
    eauto using extends_refl, extends_trans, extends_mark_safes,
      extends_mark_mines.
Qed.

Lemma extends_add_knowledge fuel c count st st' :
  AI.add_knowledge fuel c count st = Some st' → extends st st'.
Proof.
  unfold AI.add_knowledge. intros H%extends_conclude.
  eapply extends_trans; [apply extends_add_move|].
  eapply extends_trans; [apply extends_mark_safe | exact H].
Qed.

Lemma extends_run_op fuel o st st' :
  run_op fuel o st = Some st' → extends st st'.
Proof.
  destruct o; simpl; intros H.
  - injection H as <-. apply extends_mark_mine.
  - injection H as <-. apply extends_mark_safe.
  - by eapply extends_add_knowledge.
Qed.

Lemma extends_run fuel ops st st' :
  run fuel ops st = Some st' → extends st st'.
Proof.
  revert st. induction ops as [|o ops IH]; intros st; simpl.
  - intros [= <-]. apply extends_refl.
  - destruct (run_op fuel o st) as [st1|] eqn:E; [|done].
    intros H. eapply extends_trans; [by eapply extends_run_op | by apply IH].
Qed.

End growth.

(** ** What the loop leaves behind *)

Section tidiness.
Implicit Types (st : AI.t) (X : gset Cell) (x : Sentence.t).

Lemma known_mines_subseteq x : Sentence.known_mines x ⊆ Sentence.cells x.
Proof. unfold Sentence.known_mines. case_decide; set_solver. Qed.

Lemma known_safes_subseteq x : Sentence.known_safes x ⊆ Sentence.cells x.
Proof. unfold Sentence.known_safes. case_decide; set_solver. Qed.

Lemma lookup_mark_safes X st j :
  AI.knowledge (AI.mark_safes X st) !! j =
  cross_out_safe (elements X) <$> AI.knowledge st !! j.
Proof. rewrite mark_safes_eq. simpl. apply list_lookup_fmap. Qed.

Lemma lookup_mark_mines X st j :
  AI.knowledge (AI.mark_mines X st) !! j =
  cross_out_mine (elements X) <$> AI.knowledge st !! j.
Proof. rewrite mark_mines_eq. simpl. apply list_lookup_fmap. Qed.

Lemma safes_mark_safes X st : AI.safes (AI.mark_safes X st) = X ∪ AI.safes st.
Proof. by rewrite mark_safes_eq. Qed.

Lemma mines_mark_safes X st : AI.mines (AI.mark_safes X st) = AI.mines st.
Proof. by rewrite mark_safes_eq. Qed.

Lemma safes_mark_mines X st : AI.safes (AI.mark_mines X st) = AI.safes st.
Proof. by rewrite mark_mines_eq. Qed.

Lemma mines_mark_mines X st : AI.mines (AI.mark_mines X st) = X ∪ AI.mines st.
Proof. by rewrite mark_mines_eq. Qed.

Lemma length_mark_safes X st :
  length (AI.knowledge (AI.mark_safes X st)) = length (AI.knowledge st).
Proof. rewrite mark_safes_eq. simpl. apply length_fmap. Qed.

Lemma length_mark_mines X st :
  length (AI.knowledge (AI.mark_mines X st)) = length (AI.knowledge st).
Proof. rewrite mark_mines_eq. simpl. apply length_fmap. Qed.

(** Marking a set cleans every sentence that was clean or lies inside
    the set. *)
Lemma all_clean_mark_safes X st :
  (∀ j x, AI.knowledge st !! j = Some x →
          clean st x ∨ Sentence.cells x ⊆ X) →
  all_clean (AI.mark_safes X st).
Proof.
  intros H j x'. rewrite lookup_mark_safes.
  destruct (AI.knowledge st !! j) as [x|] eqn:E; [|done].
  intros [= <-]. unfold clean.
  rewrite cross_out_safe_elements, safes_mark_safes, mines_mark_safes.
  destruct (H j x E) as [Hc|Hc]; [unfold clean in Hc|]; set_solver.
Qed.

Lemma all_clean_mark_mines X st :
  (∀ j x, AI.knowledge st !! j = Some x →
          clean st x ∨ Sentence.cells x ⊆ X) →
  all_clean (AI.mark_mines X st).
Proof.
  intros H j x'. rewrite lookup_mark_mines.
  destruct (AI.knowledge st !! j) as [x|] eqn:E; [|done].
  intros [= <-]. unfold clean.
  rewrite cross_out_mine_elements, safes_mark_mines, mines_mark_mines.
  destruct (H j x E) as [Hc|Hc]; [unfold clean in Hc|]; set_solver.
Qed.

Lemma all_clean_mark_safe c st : all_clean st → all_clean (AI.mark_safe c st).
Proof.
  intros H j x'. simpl. rewrite list_lookup_fmap.
  destruct (AI.knowledge st !! j) as [x|] eqn:E; [|done].
  intros [= <-]. specialize (H j x E). unfold clean in *. simpl.
  rewrite mark_safe_cells. set_solver.
Qed.

Lemma all_clean_mark_mine c st : all_clean st → all_clean (AI.mark_mine c st).
Proof.
  intros H j x'. simpl. rewrite list_lookup_fmap.
  destruct (AI.knowledge st !! j) as [x|] eqn:E; [|done].
  intros [= <-]. specialize (H j x E). unfold clean in *. simpl.
  rewrite mark_mine_cells. set_solver.
Qed.

Lemma all_clean_append x st :
  all_clean st → clean st x → all_clean (AI.append x st).
Proof.
  intros H Hx j y. simpl. intros [Hy|[_ Hy]]%lookup_app_Some.
  - exact (H j y Hy).
  - apply list_lookup_singleton_Some in Hy as [_ <-]. exact Hx.
Qed.

Lemma waiting_mark_mines s X st snew :
  waiting s st snew → X ## Sentence.cells snew →
  waiting s (AI.mark_mines X st) snew.
Proof.
  intros (Hs & Hlen & Hne & Hothers) HX. split; [|split; [|split]].
  - rewrite lookup_mark_mines, Hs. simpl.
    by rewrite cross_out_mine_disjoint.
  - by rewrite length_mark_mines.
  - done.
  - intros j y'. rewrite lookup_mark_mines.
    destruct (AI.knowledge st !! j) as [y|] eqn:E; [|done].
    intros [= <-] Hj. destruct (Hothers j y E Hj) as [Hc Hd].
    unfold clean in *.
    rewrite cross_out_mine_elements, safes_mark_mines, mines_mark_mines.
    set_solver.
Qed.

Lemma waiting_mark_safes s X st snew :
  waiting s st snew → X ## Sentence.cells snew →
  waiting s (AI.mark_safes X st) snew.
Proof.
  intros (Hs & Hlen & Hne & Hothers) HX. split; [|split; [|split]].
  - rewrite lookup_mark_safes, Hs. simpl.
    by rewrite cross_out_safe_disjoint.
  - by rewrite length_mark_safes.
  - done.
  - intros j y'. rewrite lookup_mark_safes.
    destruct (AI.knowledge st !! j) as [y|] eqn:E; [|done].
    intros [= <-] Hj. destruct (Hothers j y E Hj) as [Hc Hd].
    unfold clean in *.
    rewrite cross_out_safe_elements, safes_mark_safes, mines_mark_safes.
    set_solver.
Qed.

Lemma kind_mark_mines X st snew :
  X ## Sentence.cells snew →
  safe_kind st snew ∨ mine_kind st snew →
  safe_kind (AI.mark_mines X st) snew ∨ mine_kind (AI.mark_mines X st) snew.
Proof.
  unfold safe_kind, mine_kind.
  rewrite safes_mark_mines, mines_mark_mines. set_solver.
Qed.

Lemma kind_mark_safes X st snew :
  X ## Sentence.cells snew →
  safe_kind st snew ∨ mine_kind st snew →
  safe_kind (AI.mark_safes X st) snew ∨ mine_kind (AI.mark_safes X st) snew.
Proof.
  unfold safe_kind, mine_kind.
  rewrite safes_mark_safes, mines_mark_safes. set_solver.
Qed.

Lemma len_nonzero x : Sentence.cells x ≠ ∅ → Sentence.len x ≠ 0.
Proof.
  intros H Hlen. apply H. apply leibniz_equiv, size_empty_iff.
  unfold Sentence.len in Hlen. lia.
Qed.

(** Lines 225-227 keep the invariant. *)
Lemma tidy_visit_mines s i st :
  tidy s i st → (i < length (AI.knowledge st))%nat →
  tidy_mid s i (AI.visit_mines i st).
Proof.
  intros Ht Hi. unfold AI.visit_mines, AI.with_sentence.
  destruct (lookup_lt_is_Some_2 _ _ Hi) as [x Hx]. rewrite Hx.
  destruct Ht as [Hall | (Hle & snew & Hw & Hk)].
  { left. case_decide; [|done].
    apply all_clean_mark_mines. intros j y Hy. left. by eapply Hall. }
  destruct (decide (i = s)) as [->|Hne].
  - assert (x = snew) as -> by (destruct Hw as [Hs _]; congruence).
    unfold Sentence.known_mines.
    destruct (decide (Sentence.len snew = Sentence.count snew ∧
                      Sentence.count snew ≠ 0)) as [Hd|Hd].
    + rewrite decide_True by apply Hw. left.
      apply all_clean_mark_mines. intros j y Hy.
      destruct (decide (j = s)) as [->|Hj].
      * right. destruct Hw as [Hs _]. by simplify_eq.
      * left. by eapply Hw.
    + destruct (decide _) as [Hn|_]; [by destruct Hn|].
      right. exists snew. split; [done|].
      right. split; [done|]. destruct Hk as [Hk|[Hlen _]]; [done|].
      exfalso. apply Hd. split; [done|].
      rewrite <- Hlen. apply len_nonzero. apply Hw.
  - assert (Sentence.known_mines x ## Sentence.cells snew) as Hdisj.
    { pose proof (known_mines_subseteq x).
      destruct Hw as (_ & _ & _ & Ho). destruct (Ho i x Hx Hne). set_solver. }
    right. case_decide.
    + exists snew. split; [by apply waiting_mark_mines|].
      left. split; [lia | by apply kind_mark_mines].
    + exists snew. split; [done|]. left. split; [lia | done].
Qed.

(** Lines 228-230 keep the invariant. *)
Lemma tidy_visit_safes s i st :
  tidy_mid s i st → (i < length (AI.knowledge st))%nat →
  tidy s (S i) (AI.visit_safes i st).
Proof.
  intros Ht Hi. unfold AI.visit_safes, AI.with_sentence.
  destruct (lookup_lt_is_Some_2 _ _ Hi) as [x Hx]. rewrite Hx.
  destruct Ht as [Hall | (snew & Hw & [[Hlt Hk] | [-> Hk]])].
  - left. case_decide; [|done].
    apply all_clean_mark_safes. intros j y Hy. left. by eapply Hall.
  - assert (Sentence.known_safes x ## Sentence.cells snew) as Hdisj.
    { pose proof (known_safes_subseteq x).
      destruct Hw as (_ & _ & _ & Ho).
      destruct (Ho i x Hx ltac:(lia)). set_solver. }
    right. split; [lia|]. case_decide.
    + exists snew. split; [by apply waiting_mark_safes|].
      by apply kind_mark_safes.
    + by exists snew.
  - assert (x = snew) as -> by (destruct Hw as [Hs _]; congruence).
    left. unfold Sentence.known_safes.
    destruct Hk as [Hz _].
    rewrite (decide_True (P := Sentence.count snew = 0)) by done.
    rewrite decide_True by apply Hw.
    apply all_clean_mark_safes. intros j y Hy.
    destruct (decide (j = s)) as [->|Hj].
    * right. destruct Hw as [Hs _]. by simplify_eq.
    * left. by eapply Hw.
Qed.

(** Lines 231-242 keep the invariant. *)
Lemma tidy_visit_subset s i st :
  tidy s (S i) st → tidy s (S i) (AI.visit_subset s i st).
Proof.
  intros Ht. unfold AI.visit_subset, AI.with_sentence.
  destruct (AI.knowledge st !! i) as [x|] eqn:Hx; [|done].
  destruct (AI.knowledge st !! s) as [snew|] eqn:Hs; [|done].
  destruct (Sentence.eqb x snew); [done|].
  case_decide as Hsub; [|done]. case_decide; [|done].
  destruct Ht as [Hall | (Hle & snew' & Hw & Hk)].
  - left. case_decide.
    + apply all_clean_mark_safes. intros j y Hy. left. by eapply Hall.
    + apply all_clean_append; [done|].
      pose proof (Hall i x Hx) as Hc. unfold clean in *. simpl. set_solver.
  - exfalso. destruct Hw as (Hs' & _ & Hne & Ho).
    assert (snew' = snew) as -> by congruence.
    destruct (Ho i x Hx ltac:(lia)) as [_ Hd]. set_solver.
Qed.

Lemma tidy_visit s i st :
  tidy s i st → (i < length (AI.knowledge st))%nat →
  tidy s (S i) (AI.visit s i st).
Proof.
  intros Ht Hi. unfold AI.visit.
  apply tidy_visit_subset, tidy_visit_safes.
  - by apply tidy_visit_mines.
  - unfold AI.visit_mines, AI.with_sentence.
    destruct (AI.knowledge st !! i); [|done].
    case_decide; [by rewrite length_mark_mines | done].
Qed.

End tidiness.

Section separation.
Implicit Types (st : AI.t) (X : gset Cell) (x : Sentence.t).

Lemma separated_mark_mines X st :
  separated st → X ## AI.safes st → separated (AI.mark_mines X st).
Proof.
  unfold separated. rewrite safes_mark_mines, mines_mark_mines. set_solver.
Qed.

Lemma separated_mark_safes X st :
  separated st → X ## AI.mines st → separated (AI.mark_safes X st).
Proof.
  unfold separated. rewrite safes_mark_safes, mines_mark_safes. set_solver.
Qed.

Lemma sep_visit_mines s i st :
  tidy s i st → separated st → separated (AI.visit_mines i st).
Proof.
  intros Ht Hsep. unfold AI.visit_mines, AI.with_sentence.
  destruct (AI.knowledge st !! i) as [x|] eqn:Hx; [|done].
  case_decide as Hne; [|done]. apply separated_mark_mines; [done|].
  pose proof (known_mines_subseteq x) as Hsub.
  assert (clean st x → Sentence.known_mines x ## AI.safes st) as Hclean.
  { unfold clean. set_solver. }
  destruct Ht as [Hall | (Hle & snew & Hw & Hk)]; [by eauto|].
  destruct (decide (i = s)) as [->|Hi]; [|apply Hclean; by eapply Hw].
  assert (x = snew) as -> by (destruct Hw as [Hs _]; congruence).
  unfold Sentence.known_mines in Hne.
  destruct (decide _) as [[_ Hcount]|_]; [|done].
  destruct Hk as [[Hz _]|[_ Hfresh]]; [done | set_solver].
Qed.

Lemma sep_visit_safes s i st :
  tidy_mid s i st → separated st → separated (AI.visit_safes i st).
Proof.
  intros Ht Hsep. unfold AI.visit_safes, AI.with_sentence.
  destruct (AI.knowledge st !! i) as [x|] eqn:Hx; [|done].
  case_decide as Hne; [|done]. apply separated_mark_safes; [done|].
  pose proof (known_safes_subseteq x) as Hsub.
  assert (clean st x → Sentence.known_safes x ## AI.mines st) as Hclean.
  { unfold clean. set_solver. }
  destruct Ht as [Hall | (snew & Hw & [[Hlt Hk] | [-> [_ Hfresh]]])].
  - by eauto.
  - apply Hclean. eapply Hw; [done | lia].
  - assert (x = snew) as -> by (destruct Hw as [Hs _]; congruence).
    set_solver.
Qed.

Lemma sep_visit_subset s i st :
  tidy s (S i) st → separated st → separated (AI.visit_subset s i st).
Proof.
  intros Ht Hsep. unfold AI.visit_subset, AI.with_sentence.
  destruct (AI.knowledge st !! i) as [x|] eqn:Hx; [|done].
  destruct (AI.knowledge st !! s) as [snew|] eqn:Hs; [|done].
  destruct (Sentence.eqb x snew); [done|].
  case_decide as Hsub; [|done]. case_decide; [|done].
  case_decide; [|done].
  apply separated_mark_safes; [done|].
  assert (clean st x) as Hc.
  { destruct Ht as [Hall | (Hle & snew' & Hw & Hk)]; [by eauto|].
    eapply Hw; [done | lia]. }
  unfold clean in Hc. set_solver.
Qed.

Lemma length_visit_mines i st :
  length (AI.knowledge (AI.visit_mines i st)) = length (AI.knowledge st).
Proof.
  unfold AI.visit_mines, AI.with_sentence.
  destruct (AI.knowledge st !! i); [|done].
  case_decide; [by rewrite length_mark_mines | done].
Qed.

Lemma sep_visit s i st :
  tidy s i st → (i < length (AI.knowledge st))%nat →
  separated st → separated (AI.visit s i st).
Proof.
  intros Ht Hi Hsep. unfold AI.visit.
  pose proof (tidy_visit_mines s i st Ht Hi) as Hmid.
  assert (i < length (AI.knowledge (AI.visit_mines i st)))%nat as Hi'
    by by rewrite length_visit_mines.
  apply sep_visit_subset; [by apply tidy_visit_safes|].
  apply sep_visit_safes with s; [done|]. by apply sep_visit_mines with s.
Qed.

End separation.

Section neighbourhood.
Implicit Types (st : AI.t) (c cell : Cell).

Lemma elem_of_neighbor_step st cell k m nb c :
  c ∈ AI.neighbor_step st cell k m nb ↔
  c ∈ nb ∨ (c = (k, m) ∧ in_bounds st c ∧ (c ∉ AI.safes st) ∧
            (c ∉ AI.mines st) ∧ c ≠ cell).
Proof.
  unfold AI.neighbor_step, in_bounds.
  repeat case_decide; rewrite ?elem_of_union, ?elem_of_singleton;
    naive_solver.
Qed.

(** The set built by lines 203-212. *)
Lemma elem_of_neighbors_of st cell c :
  c ∈ AI.neighbors_of st cell ↔
  c ∈ corners cell ∧ in_bounds st c ∧
  (c ∉ AI.safes st) ∧ (c ∉ AI.mines st).
Proof.
  unfold AI.neighbors_of, corners. simpl.
  rewrite !elem_of_neighbor_step, !elem_of_cons, elem_of_nil.
  destruct cell as [r c0]. simpl.
  split.
  - intros [[[[H|H]|H]|H]|H]; [set_solver|..];
      destruct H as (-> & ? & ? & ? & ?); split_and!; auto.
  - intros ([->|[->|[->|[->|[]]]]] & ? & ? & ?).
    + do 3 left. right. split_and!; auto. intros [= ? ?]; lia.
    + do 2 left. right. split_and!; auto. intros [= ? ?]; lia.
    + left. right. split_and!; auto. intros [= ? ?]; lia.
    + right. split_and!; auto. intros [= ? ?]; lia.
Qed.

Lemma neighbors_of_fresh st cell :
  AI.neighbors_of st cell ## AI.safes st ∪ AI.mines st.
Proof.
  intros c Hc%elem_of_neighbors_of. set_solver.
Qed.

(** Line 214 subtracts nothing: no neighbour is a known mine. *)
Lemma neighbors_count_eq st cell (count : Z) :
  count - Z.of_nat (size (AI.neighbors_of st cell ∩ AI.mines st)) = count.
Proof.
  assert (AI.neighbors_of st cell ∩ AI.mines st = ∅) as ->.
  { pose proof (neighbors_of_fresh st cell). set_solver. }
  rewrite size_empty. lia.
Qed.

End neighbourhood.

Section calls.
Implicit Types (st : AI.t) (N : gset Cell).

Lemma mark_safes_empty st : AI.mark_safes ∅ st = st.
Proof. unfold AI.mark_safes. by rewrite elements_empty. Qed.

Lemma mark_mines_empty st : AI.mark_mines ∅ st = st.
Proof. unfold AI.mark_mines. by rewrite elements_empty. Qed.

Lemma conclude_eq fuel N count st :
  AI.conclude fuel N count st =
  let n := count - Z.of_nat (size (N ∩ AI.mines st)) in
  AI.scan fuel (length (AI.knowledge st)) 0 (before_scan N n st).
Proof.
  unfold AI.conclude, before_scan. simpl.
  repeat case_decide;
    by rewrite ?length_mark_mines, ?length_mark_safes.
Qed.

Lemma tidy_before_scan N n st :
  all_clean st → N ## AI.safes st ∪ AI.mines st →
  tidy (length (AI.knowledge st)) 0 (before_scan N n st).
Proof.
  intros Hall Hfresh. unfold before_scan.
  destruct (decide (N = ∅)) as [->|Hne].
  { rewrite mark_safes_empty, mark_mines_empty. left.
    repeat case_decide; (apply all_clean_append; [done|]);
      unfold clean; simpl; set_solver. }
  assert (Z.of_nat (size N) ≠ 0) as Hsize.
  { intros Hz. apply Hne, leibniz_equiv, size_empty_iff. lia. }
  destruct (decide (n = 0)) as [->|Hn].
  - rewrite decide_False by lia. right. split; [lia|].
    exists (Sentence.mk N 0).
    split; [|left; split; [done|]; simpl;
             rewrite mines_mark_safes; set_solver].
    split; [|split; [|split]]; simpl.
    + rewrite lookup_app_r; rewrite length_mark_safes; [|done].
      by rewrite Nat.sub_diag.
    + rewrite length_app, length_mark_safes. simpl. lia.
    + done.
    + intros j x' [Hx|[Hj Hx]]%lookup_app_Some Hjs.
      * revert Hx. rewrite lookup_mark_safes.
        destruct (AI.knowledge st !! j) as [x|] eqn:E; [|done].
        intros [= <-]. pose proof (Hall j x E) as Hc. unfold clean in *.
        simpl.
        rewrite cross_out_safe_elements, safes_mark_safes, mines_mark_safes.
        set_solver.
      * apply list_lookup_singleton_Some in Hx as [Hx _].
        rewrite length_mark_safes in Hj, Hx. lia.
  - destruct (decide (n = Z.of_nat (size N))) as [->|Hn'].
    + right. split; [lia|].
      exists (Sentence.mk N (Z.of_nat (size N))).
      split; [|right; split; [done|]; simpl;
               rewrite safes_mark_mines; set_solver].
      split; [|split; [|split]]; simpl.
      * rewrite lookup_app_r; rewrite length_mark_mines; [|done].
        by rewrite Nat.sub_diag.
      * rewrite length_app, length_mark_mines. simpl. lia.
      * done.
      * intros j x' [Hx|[Hj Hx]]%lookup_app_Some Hjs.
        -- revert Hx. rewrite lookup_mark_mines.
           destruct (AI.knowledge st !! j) as [x|] eqn:E; [|done].
           intros [= <-]. pose proof (Hall j x E) as Hc. unfold clean in *.
           simpl.
           rewrite cross_out_mine_elements, safes_mark_mines,
             mines_mark_mines.
           set_solver.
        -- apply list_lookup_singleton_Some in Hx as [Hx _].
           rewrite length_mark_mines in Hj, Hx. lia.
    + left. apply all_clean_append; [done|]. by unfold clean.
Qed.

Lemma separated_before_scan N n st :
  separated st → N ## AI.safes st ∪ AI.mines st →
  separated (before_scan N n st).
Proof.
  intros Hsep Hfresh. unfold before_scan, separated in *. simpl.
  repeat case_decide;
    rewrite ?safes_mark_mines, ?mines_mark_mines,
      ?safes_mark_safes, ?mines_mark_safes; [|set_solver..].
  assert (N = ∅) as ->; [|set_solver].
  apply leibniz_equiv, size_empty_iff. lia.
Qed.

Lemma tidy_at_end s i st :
  tidy s i st → (length (AI.knowledge st) ≤ i)%nat → all_clean st.
Proof.
  intros [Hall | (Hle & snew & (_ & Hlen & _) & _)] Hi; [done | lia].
Qed.

(** [add_knowledge] leaves only clean sentences behind. *)
Lemma all_clean_conclude fuel N count st st' :
  all_clean st → N ## AI.safes st ∪ AI.mines st →
  AI.conclude fuel N count st = Some st' → all_clean st'.
Proof.
  intros Hall Hfresh. rewrite conclude_eq. simpl. intros Hscan.
  eapply scan_invariant in Hscan as (i' & Ht & Hi');
    [by eapply tidy_at_end | apply tidy_visit |].
  by apply tidy_before_scan.
Qed.

Lemma separated_conclude fuel N count st st' :
  all_clean st → separated st → N ## AI.safes st ∪ AI.mines st →
  AI.conclude fuel N count st = Some st' → separated st'.
Proof.
  intros Hall Hsep Hfresh. rewrite conclude_eq. simpl. intros Hscan.
  eapply (scan_invariant (λ i st1, tidy (length (AI.knowledge st)) i st1 ∧
                                   separated st1))
    in Hscan as (i' & [_ Hs] & _); [done | |].
  - intros i st1 [Ht Hs] Hi. split; [by apply tidy_visit|].
    by apply sep_visit.
  - split; [by apply tidy_before_scan | by apply separated_before_scan].
Qed.

Lemma all_clean_add_move c st : all_clean st → all_clean (AI.add_move c st).
Proof. done. Qed.

Lemma all_clean_add_knowledge fuel c count st st' :
  all_clean st → AI.add_knowledge fuel c count st = Some st' →
  all_clean st'.
Proof.
  intros Hall. unfold AI.add_knowledge. apply all_clean_conclude.
  - by apply all_clean_mark_safe, all_clean_add_move.
  - apply neighbors_of_fresh.
Qed.

Lemma separated_add_knowledge fuel c count st st' :
  all_clean st → separated st → c ∉ AI.mines st →
  AI.add_knowledge fuel c count st = Some st' → separated st'.
Proof.
  intros Hall Hsep Hc. unfold AI.add_knowledge. apply separated_conclude.
  - by apply all_clean_mark_safe, all_clean_add_move.
  - unfold separated in *. simpl. set_solver.
  - apply neighbors_of_fresh.
Qed.

Lemma all_clean_run_op fuel o st st' :
  all_clean st → run_op fuel o st = Some st' → all_clean st'.
Proof.
  intros Hall. destruct o; simpl.
  - intros [= <-]. by apply all_clean_mark_mine.
  - intros [= <-]. by apply all_clean_mark_safe.
  - by apply all_clean_add_knowledge.
Qed.

Lemma separated_run_op fuel o st st' :
  all_clean st → separated st → guarded o st →
  run_op fuel o st = Some st' → separated st'.
Proof.
  intros Hall Hsep Hg. destruct o; simpl in *.
  - intros [= <-]. unfold separated in *. simpl. set_solver.
  - intros [= <-]. unfold separated in *. simpl. set_solver.
  - by apply separated_add_knowledge.
Qed.

Lemma all_clean_run fuel ops st st' :
  all_clean st → run fuel ops st = Some st' → all_clean st'.
Proof.
  revert st. induction ops as [|o ops IH]; intros st Hall; simpl.
  - by intros [= <-].
  - destruct (run_op fuel o st) as [st1|] eqn:E; [|done].
    apply IH. by eapply all_clean_run_op.
Qed.

Lemma separated_run fuel ops st st' :
  all_clean st → separated st → all_guarded fuel ops st →
  run fuel ops st = Some st' → separated st'.
Proof.
  revert st. induction ops as [|o ops IH]; intros st Hall Hsep; simpl.
  - by intros _ [= <-].
  - intros [Hg Hrest]. destruct (run_op fuel o st) as [st1|] eqn:E; [|done].
    apply IH; [by eapply all_clean_run_op | by eapply separated_run_op | done].
Qed.

Lemma all_clean_init h w : all_clean (AI.init h w).
Proof. intros j x. simpl. by rewrite lookup_nil. Qed.

End calls.

(** ** The board *)

Section board.
Variable g : Minesweeper.t.
Hypothesis wf : Minesweeper.well_formed g.

Lemma py_index_wrap {A : Type} (l : list A) (i : Z) :
  py_index l i =
  if decide (- Z.of_nat (length l) ≤ i < Z.of_nat (length l))
  then match l !! Z.to_nat (i `mod` Z.of_nat (length l)) with
       | Some a => Ok a
       | None => Raise IndexError
       end
  else Raise IndexError.
Proof.
  unfold py_index. cbv zeta.
  destruct (decide (0 ≤ i < Z.of_nat (length l))) as [Hpos|Hpos].
  - rewrite decide_True by lia. by rewrite Z.mod_small.
  - destruct (decide (- Z.of_nat (length l) ≤ i < 0)) as [Hneg|Hneg].
    + rewrite decide_True by lia.
      replace (i `mod` Z.of_nat (length l)) with (Z.of_nat (length l) + i);
        [done|].
      apply Z.mod_unique with (-1); lia.
    + by rewrite decide_False by lia.
Qed.

Lemma py_index_in_range {A : Type} (l : list A) (i : Z) (a : A) :
  0 ≤ i < Z.of_nat (length l) → l !! Z.to_nat i = Some a →
  py_index l i = Ok a.
Proof.
  intros Hi Ha. unfold py_index. cbv zeta.
  rewrite decide_True by done. by rewrite Ha.
Qed.

Lemma board_row (r : Z) :
  0 ≤ r < Minesweeper.height g →
  ∃ row, Minesweeper.board g !! Z.to_nat r = Some row ∧
         Z.of_nat (length row) = Minesweeper.width g.
Proof.
  destruct wf as [Hh Hw]. intros Hr.
  destruct (lookup_lt_is_Some_2 (Minesweeper.board g) (Z.to_nat r))
    as [row Hrow]; [lia|].
  exists row. split; [done|].
  rewrite Forall_forall in Hw. apply Hw. by eapply list_elem_of_lookup_2.
Qed.

Lemma is_mine_wrap (i j : Z) :
  Minesweeper.is_mine g (i, j) =
  if decide ((- Minesweeper.height g ≤ i < Minesweeper.height g) ∧
             (- Minesweeper.width g ≤ j < Minesweeper.width g))
  then Ok (mine_at g (i `mod` Minesweeper.height g)
                     (j `mod` Minesweeper.width g))
  else Raise IndexError.
Proof.
  pose proof wf as [Hh Hw].
  unfold Minesweeper.is_mine. rewrite py_index_wrap, Hh.
  destruct (decide (- Minesweeper.height g ≤ i < Minesweeper.height g))
    as [Hi|Hi]; [|by rewrite decide_False by tauto].
  destruct (board_row (i `mod` Minesweeper.height g)) as (row & Hrow & Hlen).
  { apply Z.mod_pos_bound. lia. }
  rewrite Hrow. simpl. rewrite py_index_wrap, Hlen.
  destruct (decide (- Minesweeper.width g ≤ j < Minesweeper.width g))
    as [Hj|Hj]; [|by rewrite decide_False by tauto].
  rewrite decide_True by done. unfold mine_at. rewrite Hrow.
  destruct (lookup_lt_is_Some_2 row
              (Z.to_nat (j `mod` Minesweeper.width g))) as [b Hb].
  { pose proof (Z.mod_pos_bound j (Minesweeper.width g)). lia. }
  by rewrite Hb.
Qed.

Lemma nearby_step_tally (cell : Cell) (i j count : Z) :
  Minesweeper.nearby_step g cell i j count =
  Ok (count + tally g cell (i, j)).
Proof.
  unfold Minesweeper.nearby_step, tally. cbn [fst snd].
  destruct (decide ((i, j) = cell)) as [He|He].
  { rewrite decide_True by done. f_equal; lia. }
  rewrite (decide_False (P := (i, j) = cell)) by done.
  destruct (decide ((0 ≤ i < Minesweeper.height g) ∧
                    (0 ≤ j < Minesweeper.width g))) as [[Hi Hj]|Hn].
  2: { f_equal; lia. }
  destruct (board_row i Hi) as (row & Hrow & Hlen).
  destruct (lookup_lt_is_Some_2 row (Z.to_nat j)) as [b Hb]; [lia|].
  pose proof wf as [Hh _].
  rewrite (py_index_in_range _ _ row) by (done || lia). simpl.
  rewrite (py_index_in_range _ _ b) by (done || lia). simpl.
  unfold mine_at. rewrite Hrow, Hb. simpl. destruct b; f_equal; lia.
Qed.

Lemma nearby_cols_tally (cell : Cell) (i : Z) (js : list Z) (count : Z) :
  Minesweeper.nearby_cols g cell i js count =
  Ok (foldl (λ n j, n + tally g cell (i, j)) count js).
Proof.
  revert count. induction js as [|j js IH]; intros count; [done|].
  cbn [Minesweeper.nearby_cols foldl].
  rewrite nearby_step_tally. apply IH.
Qed.

Lemma nearby_rows_tally (cell : Cell) (rows : list Z) (count : Z) :
  Minesweeper.nearby_rows g cell rows count =
  Ok (foldl (λ n i, foldl (λ n j, n + tally g cell (i, j)) n
                          (Minesweeper.around (snd cell)))
            count rows).
Proof.
  revert count. induction rows as [|i rows IH]; intros count; [done|].
  cbn [Minesweeper.nearby_rows foldl].
  rewrite nearby_cols_tally. apply IH.
Qed.

Lemma nearby_mines_block (cell : Cell) :
  Minesweeper.nearby_mines g cell = Ok (block_count g cell).
Proof.
  unfold Minesweeper.nearby_mines. by rewrite nearby_rows_tally.
Qed.

End board.

(** ** Fuel, and a call that never returns *)

Section fuel.
Implicit Types (st : AI.t).

Lemma scan_step fuel s i st :
  (i < length (AI.knowledge st))%nat →
  AI.scan (S fuel) s i st = AI.scan fuel s (S i) (AI.visit s i st).
Proof. intros Hi. simpl. by rewrite decide_True. Qed.

(** More fuel does not change a result. *)
Lemma scan_fuel_mono fuel fuel' s i st st' :
  (fuel ≤ fuel')%nat → AI.scan fuel s i st = Some st' →
  AI.scan fuel' s i st = Some st'.
Proof.
  revert fuel' i st. induction fuel as [|fuel IH]; intros fuel' i st Hle;
    [done|].
  destruct fuel' as [|fuel']; [lia|]. simpl.
  case_decide; [|done]. apply IH. lia.
Qed.

Lemma add_knowledge_fuel_mono fuel fuel' cell count st st' :
  (fuel ≤ fuel')%nat → AI.add_knowledge fuel cell count st = Some st' →
  AI.add_knowledge fuel' cell count st = Some st'.
Proof. intros Hle. unfold AI.add_knowledge, AI.conclude. by apply scan_fuel_mono. Qed.

(** A loop whose body keeps the index inside the list never ends. *)
Lemma scan_runs_on (J : nat → AI.t → Prop) s :
  (∀ i st, J i st → (i < length (AI.knowledge st))%nat ∧
                    J (S i) (AI.visit s i st)) →
  ∀ fuel i st, J i st → AI.scan fuel s i st = None.
Proof.
  intros Hstep fuel. induction fuel as [|fuel IH]; intros i st HJ; [done|].
  destruct (Hstep i st HJ) as [Hi HJ']. rewrite scan_step by done.
  by apply IH.
Qed.

(** With the empty sentence [∅ = 0] as the new sentence at position
    [s], visiting a sentence [x] that is neither known mines nor known
    safes and has a positive count appends a copy of [x]. *)
Lemma visit_copies s i st x :
  AI.knowledge st !! i = Some x →
  AI.knowledge st !! s = Some (Sentence.mk ∅ 0) →
  Sentence.count x > 0 → Sentence.len x ≠ Sentence.count x →
  AI.visit s i st = AI.append x st.
Proof.
  intros Hi Hs Hpos Hlen. unfold AI.visit.
  assert (AI.visit_mines i st = st) as ->.
  { unfold AI.visit_mines, AI.with_sentence. rewrite Hi.
    unfold Sentence.known_mines.
    rewrite (decide_False (P := _ ∧ _)) by tauto.
    by rewrite decide_False by (by intros []). }
  assert (AI.visit_safes i st = st) as ->.
  { unfold AI.visit_safes, AI.with_sentence. rewrite Hi.
    unfold Sentence.known_safes.
    rewrite (decide_False (P := Sentence.count x = 0)) by lia.
    by rewrite decide_False by (by intros []). }
  unfold AI.visit_subset, AI.with_sentence. rewrite Hi, Hs.
  assert (Sentence.eqb x (Sentence.mk ∅ 0) = false) as ->.
  { unfold Sentence.eqb. simpl.
    rewrite (bool_decide_eq_false_2 (Sentence.count x = 0)) by lia.
    by rewrite andb_false_r. }
  simpl. rewrite decide_True by set_solver.
  rewrite decide_True by lia. rewrite decide_False by lia.
  f_equal. destruct x as [cells count]. simpl. f_equal; [set_solver | lia].
Qed.

(** The new sentence itself, once it is [∅ = 0], is passed over. *)
Lemma visit_new_sentence_empty s st :
  AI.knowledge st !! s = Some (Sentence.mk ∅ 0) → AI.visit s s st = st.
Proof.
  intros Hs. unfold AI.visit.
  assert (AI.visit_mines s st = st) as ->.
  { unfold AI.visit_mines, AI.with_sentence. rewrite Hs.
    unfold Sentence.known_mines. cbn [Sentence.count Sentence.cells].
    rewrite (decide_False (P := _ ∧ _)) by tauto.
    by rewrite decide_False by (by intros []). }
  assert (AI.visit_safes s st = st) as ->.
  { unfold AI.visit_safes, AI.with_sentence. rewrite Hs.
    unfold Sentence.known_safes. cbn [Sentence.count Sentence.cells].
    rewrite (decide_True (P := 0 = 0)) by done.
    by rewrite decide_False by (by intros []). }
  unfold AI.visit_subset, AI.with_sentence. rewrite Hs.
  unfold Sentence.eqb. by rewrite !bool_decide_eq_true_2.
Qed.

End fuel.

(** ** Candidate moves, and the first hint *)

Section moves.
Implicit Types (st : AI.t) (c : Cell).

(** The cells that lines 273-278 collect. *)
Lemma elem_of_possible_moves st c :
  c ∈ AI.possible_moves st ↔
  (0 ≤ fst c < AI.height st - 1) ∧ (0 ≤ snd c < AI.width st - 1) ∧
  (c ∉ AI.py_and (AI.moves_made st) (AI.mines st)).
Proof.
  unfold AI.possible_moves, AI.py_range. destruct c as [f g].
  rewrite list_elem_of_bind. setoid_rewrite list_elem_of_bind.
  setoid_rewrite elem_of_seqZ. simpl. split.
  - intros (f' & (g' & Hin & Hg) & Hf). case_decide; [|by apply elem_of_nil in Hin].
    apply list_elem_of_singleton in Hin as [= -> ->]. split_and!; try done; lia.
  - intros (Hf & Hg & Hnot). exists f. split; [|lia]. exists g. split; [|lia].
    rewrite decide_True by done. by apply list_elem_of_singleton.
Qed.

(** Once a move has been made, only [mines] is consulted. *)
Lemma py_and_nonempty (A B : gset Cell) : A ≠ ∅ → AI.py_and A B = B.
Proof. intros H. unfold AI.py_and. by rewrite decide_False. Qed.

End moves.

Section first_hint.
Implicit Types (st : AI.t).

Lemma eqb_same (x : Sentence.t) : Sentence.eqb x x = true.
Proof. unfold Sentence.eqb. by rewrite !bool_decide_eq_true_2. Qed.

Lemma length_visit_safes i st :
  length (AI.knowledge (AI.visit_safes i st)) = length (AI.knowledge st).
Proof.
  unfold AI.visit_safes, AI.with_sentence.
  destruct (AI.knowledge st !! i); [|done].
  case_decide; [by rewrite length_mark_safes | done].
Qed.

(** The visit to the new sentence itself appends nothing. *)
Lemma length_visit_new s st :
  length (AI.knowledge (AI.visit s s st)) = length (AI.knowledge st).
Proof.
  unfold AI.visit.
  assert (∀ st, AI.visit_subset s s st = st) as ->.
  { intros st1. unfold AI.visit_subset, AI.with_sentence.
    destruct (AI.knowledge st1 !! s); [|done]. by rewrite eqb_same. }
  by rewrite length_visit_safes, length_visit_mines.
Qed.

(** The first hint given to a new agent is always processed: the loop
    visits the one sentence and stops. *)
Lemma first_hint_returns h w cell count :
  ∃ st', AI.add_knowledge 2 cell count (AI.init h w) = Some st'.
Proof.
  unfold AI.add_knowledge. rewrite conclude_eq. cbv zeta.
  set (st0 := before_scan _ _ _).
  assert (length (AI.knowledge st0) = 1%nat) as Hlen.
  { unfold st0, before_scan. cbn [AI.knowledge AI.append].
    rewrite length_app.
    repeat case_decide; by rewrite ?length_mark_mines, ?length_mark_safes. }
  cbn [AI.knowledge AI.mark_safe AI.add_move AI.init fmap list_fmap length].
  rewrite scan_step by lia. simpl.
  rewrite decide_False; [by eexists|].
  rewrite length_visit_new. lia.
Qed.

End first_hint.

(** * Properties of the program *)

(** C1.  [add_knowledge((0,0), 0)] on a fresh 4×4 board: the loops of
    lines 205-206 visit the offsets -1 and +2 only, so the one in-bounds
    candidate is (2,2); it is marked safe, and none of the neighbours
    (0,1), (1,0), (1,1) is. *)
Theorem C1_add_knowledge_corner_offsets :
  ∃ st', AI.add_knowledge 2 (0, 0) 0 (AI.init 4 4) = Some st' ∧
         AI.neighbors_of (AI.mark_safe (0, 0) (AI.add_move (0, 0) (AI.init 4 4)))
                         (0, 0) = {[ (2, 2) ]} ∧
         AI.safes st' = {[ (0, 0); (2, 2) ]} ∧
         ((0, 1) ∉ AI.safes st') ∧ ((1, 0) ∉ AI.safes st') ∧
         ((1, 1) ∉ AI.safes st').
Proof.
  eexists. split; [evaluate|].
  split; [evaluate|]. split; [evaluate|].
  split_and!; by_decision.
Qed.

(** C2.  Three calls on a 4×6 board leave the sentences
    A = {(0,3),(3,0),(3,3)} = 1 and B = {(0,3),(3,3)} = 1 side by side:
    B's cells are a subset of A's, yet the difference {(3,0)} = 0 is
    never derived and (3,0) is not marked safe.  Lines 236-237 compare
    only with the new sentence and ask for a positive count difference. *)
Theorem C2_subset_pair_not_resolved :
  ∃ st', run 4 [AddKnowledge (0, 0) 0; AddKnowledge (1, 1) 1;
                AddKnowledge (1, 4) 1] (AI.init 4 6) = Some st' ∧
         AI.knowledge st' =
           [Sentence.mk ∅ 0;
            Sentence.mk {[ (0, 3); (3, 0); (3, 3) ]} 1;
            Sentence.mk {[ (0, 3); (3, 3) ]} 1] ∧
         ({[ (0, 3); (3, 3) ]} : gset Cell) ⊆ {[ (0, 3); (3, 0); (3, 3) ]} ∧
         ((3, 0) ∉ AI.safes st') ∧ ((3, 0) ∉ AI.mines st').
Proof.
  eexists. split; [evaluate|]. split; [evaluate|].
  split_and!; by_decision.
Qed.

(** C3.  Three hints on a 3×8 board, each the true count of a game with
    mines at (1,1) and (1,3).  In the third call the loop of line 224
    passes the sentence {(2,0),(2,3)} = 1 at position 0, then finds
    {(2,3)} = 1 at position 1 and marks (2,3) as a mine, which turns the
    sentence at position 0 into {(2,0)} = 0.  The loop does not come back
    to it: the call returns with a sentence whose [known_safes] is
    {(2,0)} while (2,0) is in neither [safes] nor [mines], and with the
    two sentences whose cell sets became empty still in the list. *)
Theorem C3_known_safe_left_unmarked :
  ∃ st2 st', run 4 [AddKnowledge (0, 1) 1; AddKnowledge (0, 4) 1]
                   (AI.init 3 8) = Some st2 ∧
             AI.knowledge st2 =
               [Sentence.mk {[ (2, 0); (2, 3) ]} 1;
                Sentence.mk {[ (2, 3); (2, 6) ]} 1] ∧
             AI.add_knowledge 4 (2, 6) 0 st2 = Some st' ∧
             AI.knowledge st' =
               [Sentence.mk {[ (2, 0) ]} 0; Sentence.mk ∅ 0;
                Sentence.mk ∅ 0] ∧
             AI.mines st' = {[ (2, 3) ]} ∧
             Sentence.known_safes (Sentence.mk {[ (2, 0) ]} 0)
               = {[ (2, 0) ]} ∧
             ((2, 0) ∉ AI.safes st') ∧ ((2, 0) ∉ AI.mines st').
Proof.
  eexists. eexists. split; [evaluate|]. split; [evaluate|].
  split; [evaluate|]. split; [evaluate|]. split; [evaluate|].
  split; [evaluate|]. split; by_decision.
Qed.

(** C4.  With (0,0) a known mine, [add_knowledge((1,1), 1)] on a 4×4
    board stores the count 1 it was given: line 214 intersects [mines]
    with a set that lines 208-209 have already cleared of mines. *)
Theorem C4_count_not_adjusted :
  ∃ st', AI.add_knowledge 2 (1, 1) 1 (AI.mark_mine (0, 0) (AI.init 4 4))
           = Some st' ∧
         (0, 0) ∈ AI.mines (AI.mark_mine (0, 0) (AI.init 4 4)) ∧
         AI.knowledge st' = [Sentence.mk {[ (0, 3); (3, 0); (3, 3) ]} 1].
Proof.
  eexists. split; [evaluate|]. split; [by_decision | evaluate].
Qed.

(** C5.  On a 4×4 board with mines at (0,1) and (1,0) the hint for
    (0,0) is 2.  [add_knowledge((0,0), 2)] on a new agent leaves the
    sentence {(2,2)} = 2: its count exceeds its one cell, because the
    cells come from the offsets -1 and +2 of lines 205-206 while the
    count is that of the real neighbours. *)
Theorem C5_count_exceeds_cells :
  ∃ st', AI.add_knowledge 2 (0, 0) 2 (AI.init 4 4) = Some st' ∧
         AI.knowledge st' = [Sentence.mk {[ (2, 2) ]} 2] ∧
         Sentence.len (Sentence.mk {[ (2, 2) ]} 2) = 1.
Proof. eexists. split; [evaluate|]. split; evaluate. Qed.

(** X1.  After any sequence of calls on a new agent, so after every
    [add_knowledge] that returns, the cells of every sentence are
    disjoint from [safes] and from [mines]. *)
Theorem sentences_hold_no_marked_cell fuel ops h w st :
  run fuel ops (AI.init h w) = Some st →
  ∀ x, x ∈ AI.knowledge st →
       Sentence.cells x ## AI.safes st ∧ Sentence.cells x ## AI.mines st.
Proof.
  intros Hrun x [j Hj]%list_elem_of_lookup.
  pose proof (all_clean_run _ _ _ _ (all_clean_init h w) Hrun j x Hj) as Hc.
  unfold clean in Hc. set_solver.
Qed.

(** An instance: three calls on a 3×8 board. *)
Lemma sentences_hold_no_marked_cell_witness :
  ∃ st, run 4 [AddKnowledge (0, 1) 1; AddKnowledge (0, 4) 1;
               AddKnowledge (2, 6) 0] (AI.init 3 8) = Some st ∧
        Sentence.mk {[ (2, 0) ]} 0 ∈ AI.knowledge st ∧
        ∀ x, x ∈ AI.knowledge st →
             Sentence.cells x ## AI.safes st ∧ Sentence.cells x ## AI.mines st.
Proof.
  eexists. split; [evaluate|]. split; [left|].
  apply (sentences_hold_no_marked_cell 4
           [AddKnowledge (0, 1) 1; AddKnowledge (0, 4) 1;
            AddKnowledge (2, 6) 0] 3 8).
  evaluate.
Defined.

(** C6, as stated, fails: marking a safe cell as a mine, marking a mine
    as safe, or revealing a cell recorded as a mine puts the cell in both
    sets. *)
Lemma C6_cell_both_safe_and_mine :
  (∃ st, run 1 [MarkSafe (0, 0); MarkMine (0, 0)] (AI.init 4 4) = Some st ∧
         (0, 0) ∈ AI.safes st ∧ (0, 0) ∈ AI.mines st) ∧
  (∃ st, run 1 [MarkMine (0, 0); MarkSafe (0, 0)] (AI.init 4 4) = Some st ∧
         (0, 0) ∈ AI.safes st ∧ (0, 0) ∈ AI.mines st) ∧
  (∃ st, run 3 [AddKnowledge (1, 1) 1; AddKnowledge (0, 0) 0] (AI.init 3 3)
           = Some st ∧
         (0, 0) ∈ AI.safes st ∧ (0, 0) ∈ AI.mines st).
Proof.
  split_and!; (eexists; split; [evaluate|]; split; by_decision).
Qed.

(** C6, amended.  [safes] and [mines] are disjoint after any sequence of
    calls on a new agent in which [mark_mine] is never given a cell of
    [safes], and [mark_safe] and [add_knowledge] never a cell of
    [mines]. *)
Theorem C6_safes_mines_disjoint fuel ops h w st :
  all_guarded fuel ops (AI.init h w) →
  run fuel ops (AI.init h w) = Some st →
  AI.safes st ## AI.mines st.
Proof.
  intros Hg Hrun.
  eapply (separated_run fuel ops (AI.init h w));
    [apply all_clean_init | | done | done].
  unfold separated. simpl. set_solver.
Qed.

(** An instance: three hints and one mine flagged, all within the guard. *)
Lemma C6_safes_mines_disjoint_witness :
  ∃ st, run 4 [AddKnowledge (0, 1) 1; AddKnowledge (0, 4) 1;
               AddKnowledge (2, 6) 0; MarkMine (2, 0)] (AI.init 3 8)
          = Some st ∧
        (2, 3) ∈ AI.mines st ∧ (1, 5) ∈ AI.safes st ∧
        AI.safes st ## AI.mines st.
Proof.
  eexists. split; [evaluate|]. split; [by_decision|]. split; [by_decision|].
  apply (C6_safes_mines_disjoint 4
           [AddKnowledge (0, 1) 1; AddKnowledge (0, 4) 1;
            AddKnowledge (2, 6) 0; MarkMine (2, 0)] 3 8).
  - vm_compute. repeat split; discriminate.
  - evaluate.
Defined.

(** C7.  On a 2×2 board whose four cells have all been played,
    [make_random_move] returns (0,0), a move already made, instead of
    [None]: the ranges of lines 274-275 stop one short of the last row and
    column, and [self.moves_made and self.mines] on line 277 is the set
    [mines] as soon as [moves_made] is non-empty.  On a fresh 2×2 board
    the only candidate is (0,0). *)
Theorem C7_random_move_returns_played_cell :
  ∃ st, run 5 [AddKnowledge (0, 0) 0; AddKnowledge (0, 1) 0;
               AddKnowledge (1, 0) 0; AddKnowledge (1, 1) 0] (AI.init 2 2)
          = Some st ∧
        AI.moves_made st = {[ (0, 0); (0, 1); (1, 0); (1, 1) ]} ∧
        AI.mines st = ∅ ∧
        AI.possible_moves st = [(0, 0)] ∧
        (∀ rnd, AI.make_random_move rnd st = Some (0, 0)) ∧
        AI.possible_moves (AI.init 2 2) = [(0, 0)].
Proof.
  eexists. split; [evaluate|]. split; [evaluate|]. split; [evaluate|].
  match goal with |- AI.possible_moves ?st = _ ∧ _ =>
    assert (AI.possible_moves st = [(0, 0)]) as Hmoves by evaluate
  end.
  split; [exact Hmoves|]. split; [|evaluate].
  intros rnd. unfold AI.make_random_move, AI.choice. rewrite Hmoves.
  cbn [length]. rewrite decide_True by done. by rewrite Nat.mod_1_r.
Qed.

(** C8.  [known_mines] is the cell set when the number of cells equals a
    positive count and the empty set otherwise; [known_safes] is the cell
    set when the count is 0 and the empty set otherwise. *)
Theorem C8_known_mines_known_safes (s : Sentence.t) :
  Sentence.known_mines s =
    (if decide (Sentence.len s = Sentence.count s ∧ Sentence.count s > 0)
     then Sentence.cells s else ∅) ∧
  Sentence.known_safes s =
    (if decide (Sentence.count s = 0) then Sentence.cells s else ∅).
Proof.
  split; [|done]. unfold Sentence.known_mines.
  assert (0 ≤ Sentence.len s) by (unfold Sentence.len; lia).
  repeat case_decide; try done; lia.
Qed.

(** C9, as stated, fails: on a 2×2 board the cell (-1,-1) is out of
    bounds, yet [is_mine] answers with the entry of (1,1) and
    [nearby_mines] with a count; so does [nearby_mines] far outside. *)
Lemma C9_out_of_bounds_cell_answered :
  Minesweeper.is_mine two_by_two (-1, -1) = Ok true ∧
  Minesweeper.nearby_mines two_by_two (-1, -1) = Ok 1 ∧
  Minesweeper.nearby_mines two_by_two (7, 7) = Ok 0 ∧
  Minesweeper.is_mine two_by_two (2, 0) = Raise IndexError.
Proof. split_and!; reflexivity. Qed.

(** C9, amended.  On a board as [__init__] builds it, [is_mine] raises
    (an [IndexError]) exactly when the row is outside [-H, H) or the
    column outside [-W, W), and reads a negative index from the end of
    the list; [nearby_mines] never raises: for every cell, in bounds or
    not, it returns the number of mines among the in-bounds cells of the
    3×3 block around it, the cell itself left out. *)
Theorem C9_board_queries (g : Minesweeper.t) (i j : Z) :
  Minesweeper.well_formed g →
  Minesweeper.is_mine g (i, j) =
    (if decide ((- Minesweeper.height g ≤ i < Minesweeper.height g) ∧
                (- Minesweeper.width g ≤ j < Minesweeper.width g))
     then Ok (mine_at g (i `mod` Minesweeper.height g)
                        (j `mod` Minesweeper.width g))
     else Raise IndexError) ∧
  Minesweeper.nearby_mines g (i, j) = Ok (block_count g (i, j)).
Proof.
  intros wf. split; [by apply is_mine_wrap | by apply nearby_mines_block].
Qed.

(** An instance: the 2×2 board, queried at (-1,-2). *)
Lemma C9_board_queries_witness :
  Minesweeper.well_formed two_by_two ∧
  Minesweeper.is_mine two_by_two (-1, -2) = Ok false ∧
  Minesweeper.nearby_mines two_by_two (-1, -2) = Ok 0 ∧
  block_count two_by_two (1, 2) = 1.
Proof.
  assert (Minesweeper.well_formed two_by_two) as wf.
  { split; [reflexivity | repeat constructor]. }
  split; [exact wf|].
  destruct (C9_board_queries two_by_two (-1) (-2) wf) as [Hm Hn].
  split; [exact Hm|]. split; [exact Hn | reflexivity].
Defined.

(** C10.  Every sequence of agent operations that returns keeps every
    sentence of the list at its position, possibly with cells removed
    and never with cells added, and the list never gets shorter; a
    sentence whose cell set is empty therefore stays in the list, empty,
    whatever is called afterwards. *)
Theorem C10_sentences_never_removed fuel (ops : list op) (st st' : AI.t) :
  run fuel ops st = Some st' →
  (length (AI.knowledge st) ≤ length (AI.knowledge st'))%nat ∧
  (∀ (j : nat) (x : Sentence.t), AI.knowledge st !! j = Some x →
     ∃ x', AI.knowledge st' !! j = Some x' ∧
           Sentence.cells x' ⊆ Sentence.cells x ∧
           (Sentence.cells x = ∅ → Sentence.cells x' = ∅)).
Proof.
  intros (Hlen & _ & _ & _ & Hk)%extends_run. split; [done|].
  intros j x Hx. destruct (Hk j x Hx) as (x' & Hx' & Hsub).
  exists x'. split; [done|]. split; [done|]. set_solver.
Qed.

(** An instance: the third hint on a 3×8 board empties the second
    sentence, which stays at position 1 when a mine is flagged next. *)
Lemma C10_sentences_never_removed_witness :
  ∃ st st',
    run 4 [AddKnowledge (0, 1) 1; AddKnowledge (0, 4) 1] (AI.init 3 8)
      = Some st ∧
    run 4 [AddKnowledge (2, 6) 0; MarkMine (2, 0)] st = Some st' ∧
    length (AI.knowledge st) = 2%nat ∧ length (AI.knowledge st') = 3%nat ∧
    (length (AI.knowledge st) ≤ length (AI.knowledge st'))%nat ∧
    AI.knowledge st' !! 1%nat = Some (Sentence.mk ∅ 0).
Proof.
  eexists. eexists. split; [evaluate|]. split; [evaluate|].
  split; [evaluate|]. split; [evaluate|].
  split; [|evaluate].
  refine (proj1 (C10_sentences_never_removed 4
                   [AddKnowledge (2, 6) 0; MarkMine (2, 0)] _ _ _)).
  evaluate.
Defined.

(** X2.  [add_knowledge] need not return.  On a 2×5 board, after
    [add_knowledge((1,1), 1)] has stored {(0,0),(0,3)} = 1, the call
    [add_knowledge((0,4), 0)] finds no candidate cell, appends ∅ = 0,
    and from then on every visit to a copy of {(0,0),(0,3)} = 1 appends
    another copy to the list that the loop of line 224 iterates over. *)
Theorem add_knowledge_runs_forever :
  AI.add_knowledge 2 (1, 1) 1 (AI.init 2 5) = Some lone_state ∧
  ∀ fuel, AI.add_knowledge fuel (0, 4) 0 lone_state = None.
Proof.
  split; [evaluate|].
  intros fuel. unfold AI.add_knowledge. rewrite conclude_eq. cbv zeta.
  match goal with |- AI.scan _ ?s _ ?st = _ =>
    assert (s = 1%nat) as -> by evaluate;
    assert (st = AI.mk 2 5 {[ (0, 4); (1, 1) ]} ∅ {[ (0, 4); (1, 1) ]}
                   [lone_sentence; Sentence.mk ∅ 0]) as -> by evaluate
  end.
  apply (scan_runs_on
           (λ i st, AI.knowledge st !! 1%nat = Some (Sentence.mk ∅ 0) ∧
                    AI.knowledge st !! 2%nat =
                      (if i is O then None else Some lone_sentence) ∧
                    (if i is 1%nat then True
                     else AI.knowledge st !! i = Some lone_sentence) ∧
                    length (AI.knowledge st) =
                      (if i is O then 2%nat
                       else if i is 1%nat then 3%nat else S i))).
  - intros i st (Hs & H2 & Hi & Hlen).
    destruct i as [|[|i]].
    + split; [lia|].
      rewrite (visit_copies 1 0 st _ Hi Hs) by (vm_compute; done).
      cbn [AI.knowledge AI.append]. split_and!.
      * by apply lookup_app_l_Some.
      * rewrite lookup_app_r by lia. by rewrite Hlen.
      * done.
      * rewrite length_app, Hlen. done.
    + split; [lia|]. by rewrite visit_new_sentence_empty.
    + split; [lia|].
      rewrite (visit_copies 1 (S (S i)) st _ Hi Hs) by (vm_compute; done).
      cbn [AI.knowledge AI.append]. split_and!.
      * by apply lookup_app_l_Some.
      * by apply lookup_app_l_Some.
      * rewrite lookup_app_r by lia. by rewrite Hlen, Nat.sub_diag.
      * rewrite length_app, Hlen. simpl. lia.
  - split_and!; reflexivity.
Qed.

(** ** What a call changes and what it leaves alone *)

Section frames.
Implicit Types (st : AI.t) (X : gset Cell).

Lemma frame_mark_safes X st : frame (AI.mark_safes X st) = frame st.
Proof. by rewrite mark_safes_eq. Qed.

Lemma frame_mark_mines X st : frame (AI.mark_mines X st) = frame st.
Proof. by rewrite mark_mines_eq. Qed.

Lemma frame_visit s i st : frame (AI.visit s i st) = frame st.
Proof.
  unfold AI.visit.
  assert (∀ st1, frame (AI.visit_mines i st1) = frame st1) as Hm.
  { intros st1. unfold AI.visit_mines, AI.with_sentence.
    destruct (AI.knowledge st1 !! i); [|done].
    case_decide; [apply frame_mark_mines | done]. }
  assert (∀ st1, frame (AI.visit_safes i st1) = frame st1) as Hs.
  { intros st1. unfold AI.visit_safes, AI.with_sentence.
    destruct (AI.knowledge st1 !! i); [|done].
    case_decide; [apply frame_mark_safes | done]. }
  assert (∀ st1, frame (AI.visit_subset s i st1) = frame st1) as Hu.
  { intros st1. unfold AI.visit_subset, AI.with_sentence.
    destruct (AI.knowledge st1 !! i); [|done].
    destruct (AI.knowledge st1 !! s); [|done].
    repeat case_match; try done. apply frame_mark_safes. }
  by rewrite Hu, Hs, Hm.
Qed.

Lemma frame_scan fuel s i st st' :
  AI.scan fuel s i st = Some st' → frame st' = frame st.
Proof.
  intros H.
  assert (∃ i', frame st' = frame st ∧
                (length (AI.knowledge st') ≤ i')%nat) as (i' & ? & _);
    [|done].
  eapply (scan_invariant (λ _ st1, frame st1 = frame st)); [|done|exact H].
  intros i0 st1 H1 _. by rewrite frame_visit.
Qed.

Lemma frame_before_scan X n st : frame (before_scan X n st) = frame st.
Proof.
  unfold before_scan. cbv zeta.
  transitivity (frame (if decide (n = Z.of_nat (size X))
                       then AI.mark_mines X
                              (if decide (n = 0)
                               then AI.mark_safes X st else st)
                       else if decide (n = 0)
                            then AI.mark_safes X st else st)); [done|].
  repeat case_decide; by rewrite ?frame_mark_mines, ?frame_mark_safes.
Qed.

Lemma frame_add_knowledge fuel cell count st st' :
  AI.add_knowledge fuel cell count st = Some st' →
  frame st' = (AI.height st, AI.width st, {[cell]} ∪ AI.moves_made st).
Proof.
  unfold AI.add_knowledge. rewrite conclude_eq. cbv zeta.
  intros H%frame_scan. by rewrite H, frame_before_scan.
Qed.

Lemma size_run fuel ops st st' :
  run fuel ops st = Some st' →
  AI.height st' = AI.height st ∧ AI.width st' = AI.width st.
Proof.
  revert st. induction ops as [|o ops IH]; intros st; simpl.
  - by intros [= <-].
  - destruct (run_op fuel o st) as [st1|] eqn:E; [|done].
    intros [-> ->]%IH.
    destruct o; simpl in E; try (by injection E as <-).
    by apply frame_add_knowledge in E as [= -> -> _].
Qed.

End frames.

Section closed_forms.
Implicit Types (s : Sentence.t) (st : AI.t) (c : Cell) (X : gset Cell)
  (l : list Cell).

Lemma cross_out_safe_closed l s :
  cross_out_safe l s = without_safes (list_to_set l) s.
Proof.
  destruct (cross_out_safe l s) as [cs n] eqn:E. unfold without_safes.
  f_equal.
  - by rewrite <- cross_out_safe_cells, E.
  - by rewrite <- (cross_out_safe_count l s), E.
Qed.

Lemma mark_mine_closed c s :
  Sentence.mark_mine c s = without_mines {[c]} s.
Proof.
  unfold Sentence.mark_mine, without_mines. destruct s as [cs n]. simpl.
  case_decide as Hc.
  - f_equal. assert (cs ∩ {[c]} = {[c]}) as -> by set_solver.
    rewrite size_singleton. lia.
  - f_equal; [set_solver|].
    assert (cs ∩ {[c]} = ∅) as -> by set_solver. rewrite size_empty. lia.
Qed.

Lemma without_mines_twice X c s :
  c ∉ X → without_mines X (without_mines {[c]} s) = without_mines ({[c]} ∪ X) s.
Proof.
  intros Hc. unfold without_mines. destruct s as [cs n]. simpl. f_equal.
  - set_solver.
  - assert (cs ∩ ({[c]} ∪ X) = (cs ∩ {[c]}) ∪ ((cs ∖ {[c]}) ∩ X)) as ->.
    { apply set_eq. intros x. destruct (decide (x = c)) as [->|Hne];
        set_solver. }
    rewrite (size_union (cs ∩ {[c]}) ((cs ∖ {[c]}) ∩ X)) by set_solver. lia.
Qed.

Lemma cross_out_mine_closed l s :
  NoDup l → cross_out_mine l s = without_mines (list_to_set l) s.
Proof.
  intros Hl. revert s. induction Hl as [|c l Hc Hl IH]; intros s.
  - unfold without_mines. destruct s as [cs n]. simpl. f_equal.
    + set_solver.
    + assert (cs ∩ ∅ = ∅) as -> by set_solver. rewrite size_empty. lia.
  - unfold cross_out_mine in *. simpl. rewrite IH, mark_mine_closed.
    apply without_mines_twice. by rewrite elem_of_list_to_set.
Qed.

End closed_forms.

(** X3.  Across any sequence of calls that returns, [moves_made],
    [safes] and [mines] only grow and the board size stays what it was. *)
Theorem sets_only_grow fuel (ops : list op) (st st' : AI.t) :
  run fuel ops st = Some st' →
  AI.moves_made st ⊆ AI.moves_made st' ∧
  AI.safes st ⊆ AI.safes st' ∧
  AI.mines st ⊆ AI.mines st' ∧
  AI.height st' = AI.height st ∧ AI.width st' = AI.width st.
Proof.
  intros Hrun. pose proof (extends_run _ _ _ _ Hrun) as (_ & ? & ? & ? & _).
  pose proof (size_run _ _ _ _ Hrun) as [? ?]. done.
Qed.

(** An instance: three hints on a 3×8 board. *)
Lemma sets_only_grow_witness :
  ∃ st st',
    run 4 [AddKnowledge (0, 1) 1] (AI.init 3 8) = Some st ∧
    run 4 [AddKnowledge (0, 4) 1; AddKnowledge (2, 6) 0] st = Some st' ∧
    AI.safes st = {[ (0, 1) ]} ∧
    AI.safes st' = {[ (0, 1); (0, 4); (1, 5); (2, 6) ]} ∧
    AI.safes st ⊆ AI.safes st' ∧ AI.width st' = 8.
Proof.
  eexists. eexists. split; [evaluate|]. split; [evaluate|].
  split; [evaluate|]. split; [evaluate|].
  match goal with |- AI.safes ?a ⊆ AI.safes ?b ∧ _ =>
    destruct (sets_only_grow 4
                [AddKnowledge (0, 4) 1; AddKnowledge (2, 6) 0] a b
                ltac:(evaluate)) as (_ & Hs & _ & _ & Hw)
  end.
  split; [exact Hs | exact Hw].
Defined.

(** X4.  A call of [add_knowledge] that returns has added [cell], and
    nothing else, to [moves_made], and [cell] is in [safes]. *)
Theorem add_knowledge_records_move fuel cell count (st st' : AI.t) :
  AI.add_knowledge fuel cell count st = Some st' →
  AI.moves_made st' = {[cell]} ∪ AI.moves_made st ∧ cell ∈ AI.safes st'.
Proof.
  intros H. split.
  - by apply frame_add_knowledge in H as [= _ _ ->].
  - unfold AI.add_knowledge in H. apply extends_conclude in H.
    destruct H as (_ & _ & Hs & _). apply Hs. simpl. set_solver.
Qed.

(** An instance: the first hint on a 4×4 board. *)
Lemma add_knowledge_records_move_witness :
  ∃ st', AI.add_knowledge 2 (1, 1) 2 (AI.init 4 4) = Some st' ∧
         AI.moves_made st' = {[ (1, 1) ]} ∪ AI.moves_made (AI.init 4 4) ∧
         (1, 1) ∈ AI.safes st'.
Proof.
  eexists. split; [evaluate|].
  apply (add_knowledge_records_move 2 (1, 1) 2 (AI.init 4 4)). evaluate.
Defined.

Section shapes.
Implicit Types (st : AI.t) (c cell : Cell) (l : list Cell).

Lemma size_list_to_set_le l : (size (list_to_set l : gset Cell) ≤ length l)%nat.
Proof.
  induction l as [|c l IH].
  - by rewrite list_to_set_nil, size_empty.
  - rewrite list_to_set_cons.
    rewrite (size_union_alt {[c]} (list_to_set l)), size_singleton. simpl.
    pose proof (subseteq_size (list_to_set l ∖ {[c]}) (list_to_set l : gset Cell)
                  ltac:(set_solver)).
    lia.
Qed.

Lemma corner_not_cell cell : cell ∉ corners cell.
Proof.
  unfold corners. destruct cell as [r c]. simpl.
  rewrite !elem_of_cons, elem_of_nil.
  intros [H|[H|[H|[H|[]]]]]; injection H; lia.
Qed.

End shapes.

(** X5.  The sentence that [add_knowledge] appends before its loop has
    the count it was given, unchanged, and as cells exactly those of the
    four cells at row offset -1 or +2 and column offset -1 or +2 that are
    on the board and in neither [safes] nor [mines]: at most four cells,
    and of the eight neighbours of [cell] only the upper left one. *)
Theorem new_sentence_shape fuel (cell : Cell) (count : Z) (st : AI.t) :
  let st0 := AI.mark_safe cell (AI.add_move cell st) in
  let N := AI.neighbors_of st0 cell in
  AI.add_knowledge fuel cell count st =
    AI.scan fuel (length (AI.knowledge st)) 0 (before_scan N count st0) ∧
  last (AI.knowledge (before_scan N count st0)) = Some (Sentence.mk N count) ∧
  (∀ c, c ∈ N ↔ c ∈ corners cell ∧ in_bounds st c ∧
                (c ∉ AI.safes st) ∧ (c ∉ AI.mines st)) ∧
  (size N ≤ 4)%nat.
Proof.
  cbv zeta. split_and!.
  - unfold AI.add_knowledge. rewrite conclude_eq. cbv zeta.
    rewrite neighbors_count_eq.
    f_equal. simpl. by rewrite length_fmap.
  - unfold before_scan. cbn [AI.knowledge AI.append]. by rewrite last_snoc.
  - intros c. rewrite elem_of_neighbors_of.
    unfold in_bounds. simpl. split.
    + intros (Hc & Hb & Hs & Hm). split_and!; try done; set_solver.
    + intros (Hc & Hb & Hs & Hm).
      assert (c ≠ cell) by (intros ->; by apply (corner_not_cell cell)).
      split_and!; try done; set_solver.
  - etrans; [|apply (size_list_to_set_le (corners cell))].
    apply subseteq_size. intros c Hc%elem_of_neighbors_of.
    rewrite elem_of_list_to_set. apply Hc.
Qed.

(** X6.  [for cell in X: self.mark_mine(cell)] gives the same state in
    whatever order the set is iterated: [X] joins [mines], its cells
    leave every sentence, and each count drops by the number of cells
    the sentence loses.  Likewise for [mark_safe], the counts staying. *)
Theorem marking_in_any_order (X : gset Cell) (l : list Cell) (st : AI.t) :
  NoDup l → list_to_set l = X →
  foldl (λ st c, AI.mark_mine c st) st l =
    {| AI.height := AI.height st; AI.width := AI.width st;
       AI.moves_made := AI.moves_made st;
       AI.mines := X ∪ AI.mines st;
       AI.safes := AI.safes st;
       AI.knowledge := without_mines X <$> AI.knowledge st |} ∧
  foldl (λ st c, AI.mark_safe c st) st l =
    {| AI.height := AI.height st; AI.width := AI.width st;
       AI.moves_made := AI.moves_made st;
       AI.mines := AI.mines st;
       AI.safes := X ∪ AI.safes st;
       AI.knowledge := without_safes X <$> AI.knowledge st |} ∧
  foldl (λ st c, AI.mark_mine c st) st l = AI.mark_mines X st ∧
  foldl (λ st c, AI.mark_safe c st) st l = AI.mark_safes X st.
Proof.
  intros Hl <-.
  assert (∀ l', NoDup l' → list_to_set l' = (list_to_set l : gset Cell) →
          foldl (λ st c, AI.mark_mine c st) st l' =
            {| AI.height := AI.height st; AI.width := AI.width st;
               AI.moves_made := AI.moves_made st;
               AI.mines := list_to_set l ∪ AI.mines st;
               AI.safes := AI.safes st;
               AI.knowledge := without_mines (list_to_set l) <$> AI.knowledge st |})
    as Hmine.
  { intros l' Hl' <-. rewrite foldl_mark_mine. f_equal.
    apply list_fmap_ext. intros _ x _. by apply cross_out_mine_closed. }
  assert (∀ l', list_to_set l' = (list_to_set l : gset Cell) →
          foldl (λ st c, AI.mark_safe c st) st l' =
            {| AI.height := AI.height st; AI.width := AI.width st;
               AI.moves_made := AI.moves_made st;
               AI.mines := AI.mines st;
               AI.safes := list_to_set l ∪ AI.safes st;
               AI.knowledge := without_safes (list_to_set l) <$> AI.knowledge st |})
    as Hsafe.
  { intros l' <-. rewrite foldl_mark_safe. f_equal.
    apply list_fmap_ext. intros _ x _. by apply cross_out_safe_closed. }
  split_and!.
  - by apply Hmine.
  - by apply Hsafe.
  - rewrite (Hmine l) by done. unfold AI.mark_mines.
    rewrite (Hmine (elements (list_to_set l : gset Cell))); [done| |].
    + apply NoDup_elements.
    + apply list_to_set_elements_L.
  - rewrite (Hsafe l) by done. unfold AI.mark_safes.
    rewrite (Hsafe (elements (list_to_set l : gset Cell))); [done|].
    apply list_to_set_elements_L.
Qed.

(** An instance: two cells marked as mines in a state with the sentence
    {(0,0),(0,3),(3,3)} = 2, first (3,3) then (0,0). *)
Lemma marking_in_any_order_witness :
  foldl (λ st c, AI.mark_mine c st)
        (AI.mk 4 4 ∅ ∅ ∅ [Sentence.mk {[ (0, 0); (0, 3); (3, 3) ]} 2])
        [(3, 3); (0, 0)] =
  AI.mark_mines {[ (0, 0); (3, 3) ]}
        (AI.mk 4 4 ∅ ∅ ∅ [Sentence.mk {[ (0, 0); (0, 3); (3, 3) ]} 2]).
Proof.
  refine (proj1 (proj2 (proj2 (marking_in_any_order {[ (0, 0); (3, 3) ]}
                                 [(3, 3); (0, 0)] _ _ _)))).
  - apply (bool_decide_unpack _). vm_compute. exact I.
  - evaluate.
Defined.

(** ** Truth of the sentences *)

Section truth.
Implicit Types (M X : gset Cell) (s x : Sentence.t) (st : AI.t) (c : Cell).

Lemma holds_known_mines M s : holds M s → Sentence.known_mines s ⊆ M.
Proof.
  unfold holds, Sentence.known_mines, Sentence.len. intros H.
  case_decide as Hk; [|set_solver]. destruct Hk as [Hlen _].
  assert (Sentence.cells s ∩ M = Sentence.cells s) as Heq.
  { apply set_subseteq_size_eq; [set_solver | lia]. }
  set_solver.
Qed.

Lemma holds_known_safes M s : holds M s → Sentence.known_safes s ## M.
Proof.
  unfold holds, Sentence.known_safes. intros H.
  case_decide as Hk; [|set_solver].
  assert (Sentence.cells s ∩ M = ∅) as Heq.
  { apply leibniz_equiv, size_empty_iff. lia. }
  set_solver.
Qed.

Lemma holds_mark_mine M c s : holds M s → c ∈ M → holds M (Sentence.mark_mine c s).
Proof.
  unfold holds, Sentence.mark_mine. intros H Hc.
  case_decide as Hin; [|done]. simpl.
  assert (Sentence.cells s ∩ M =
          {[c]} ∪ ((Sentence.cells s ∖ {[c]}) ∩ M)) as Heq.
  { apply set_eq. intros y. destruct (decide (y = c)) as [->|?]; set_solver. }
  rewrite Heq in H.
  rewrite (size_union {[c]} ((Sentence.cells s ∖ {[c]}) ∩ M)) in H
    by set_solver.
  rewrite size_singleton in H. lia.
Qed.

Lemma holds_mark_safe M c s : holds M s → c ∉ M → holds M (Sentence.mark_safe c s).
Proof.
  unfold holds, Sentence.mark_safe. intros H Hc.
  case_decide as Hin; [|done]. simpl.
  assert ((Sentence.cells s ∖ {[c]}) ∩ M = Sentence.cells s ∩ M) as ->
    by set_solver.
  done.
Qed.

Lemma sound_mark_mine M c st : sound M st → c ∈ M → sound M (AI.mark_mine c st).
Proof.
  intros (Hm & Hs & Hk) Hc. split_and!; simpl; [set_solver | done |].
  intros j x'. rewrite list_lookup_fmap.
  destruct (AI.knowledge st !! j) as [x|] eqn:E; [|done].
  intros [= <-]. apply holds_mark_mine; [by eapply Hk | done].
Qed.

Lemma sound_mark_safe M c st : sound M st → c ∉ M → sound M (AI.mark_safe c st).
Proof.
  intros (Hm & Hs & Hk) Hc. split_and!; simpl; [done | set_solver |].
  intros j x'. rewrite list_lookup_fmap.
  destruct (AI.knowledge st !! j) as [x|] eqn:E; [|done].
  intros [= <-]. apply holds_mark_safe; [by eapply Hk | done].
Qed.

Lemma sound_mark_mines M X st : sound M st → X ⊆ M → sound M (AI.mark_mines X st).
Proof.
  intros Hs HX. unfold AI.mark_mines.
  assert (∀ c, c ∈ elements X → c ∈ M) as Hl.
  { intros c Hc%elem_of_elements. set_solver. }
  revert st Hs. induction (elements X) as [|c l IH]; intros st Hs; [done|].
  simpl. apply IH.
  - intros c' Hc'. apply Hl. by right.
  - apply sound_mark_mine; [done|]. apply Hl. by left.
Qed.

Lemma sound_mark_safes M X st : sound M st → X ## M → sound M (AI.mark_safes X st).
Proof.
  intros Hs HX. unfold AI.mark_safes.
  assert (∀ c, c ∈ elements X → c ∉ M) as Hl.
  { intros c Hc%elem_of_elements. set_solver. }
  revert st Hs. induction (elements X) as [|c l IH]; intros st Hs; [done|].
  simpl. apply IH.
  - intros c' Hc'. apply Hl. by right.
  - apply sound_mark_safe; [done|]. apply Hl. by left.
Qed.

Lemma sound_visit_mines M i st : sound M st → sound M (AI.visit_mines i st).
Proof.
  intros Hs. unfold AI.visit_mines, AI.with_sentence.
  destruct (AI.knowledge st !! i) as [x|] eqn:E; [|done].
  case_decide; [|done]. apply sound_mark_mines; [done|].
  apply holds_known_mines. by eapply Hs.
Qed.

Lemma sound_visit_safes M i st : sound M st → sound M (AI.visit_safes i st).
Proof.
  intros Hs. unfold AI.visit_safes, AI.with_sentence.
  destruct (AI.knowledge st !! i) as [x|] eqn:E; [|done].
  case_decide; [|done]. apply sound_mark_safes; [done|].
  apply holds_known_safes. by eapply Hs.
Qed.

End truth.

(** X7.  Whatever the true set of mines [M]: a sentence that is true of
    [M] has all its [known_mines] in [M] and none of its [known_safes];
    it stays true when a cell of [M] is crossed out by [mark_mine] and
    when a cell outside [M] is crossed out by [mark_safe]. *)
Theorem sentence_inference_sound (M : gset Cell) (s : Sentence.t) :
  holds M s →
  Sentence.known_mines s ⊆ M ∧
  Sentence.known_safes s ## M ∧
  (∀ c, c ∈ M → holds M (Sentence.mark_mine c s)) ∧
  (∀ c, c ∉ M → holds M (Sentence.mark_safe c s)).
Proof.
  intros H. split_and!.
  - by apply holds_known_mines.
  - by apply holds_known_safes.
  - intros c Hc. by apply holds_mark_mine.
  - intros c Hc. by apply holds_mark_safe.
Qed.

(** An instance: {(0,0),(0,3)} = 2 with mines at (0,0), (0,3), (2,2). *)
Lemma sentence_inference_sound_witness :
  holds {[ (0, 0); (0, 3); (2, 2) ]} (Sentence.mk {[ (0, 0); (0, 3) ]} 2) ∧
  Sentence.known_mines (Sentence.mk {[ (0, 0); (0, 3) ]} 2)
    ⊆ {[ (0, 0); (0, 3); (2, 2) ]}.
Proof.
  assert (holds {[ (0, 0); (0, 3); (2, 2) ]}
                (Sentence.mk {[ (0, 0); (0, 3) ]} 2)) as H by evaluate.
  split; [exact H|].
  exact (proj1 (sentence_inference_sound _ _ H)).
Defined.

(** X8.  As long as all that the agent holds is true of the mine set
    [M] ([mines] inside [M], [safes] outside, every sentence true),
    it stays so when a cell of [M] is marked as a mine, when a cell
    outside [M] is marked safe, and through lines 225-230 of the loop of
    [add_knowledge], which mark the known mines and known safes of the
    sentence visited. *)
Theorem direct_inference_sound (M : gset Cell) (i : nat) (st : AI.t) :
  sound M st →
  (∀ c, c ∈ M → sound M (AI.mark_mine c st)) ∧
  (∀ c, c ∉ M → sound M (AI.mark_safe c st)) ∧
  sound M (AI.visit_safes i (AI.visit_mines i st)).
Proof.
  intros H. split_and!.
  - intros c Hc. by apply sound_mark_mine.
  - intros c Hc. by apply sound_mark_safe.
  - by apply sound_visit_safes, sound_visit_mines.
Qed.

(** An instance: with mines at (0,0) and (0,3), the sentences
    {(0,0),(0,3)} = 2 and {(0,3),(3,3)} = 1 lead to (3,3) being safe
    only at the second visit. *)
Lemma direct_inference_sound_witness :
  sound {[ (0, 0); (0, 3) ]}
        (AI.mk 4 4 ∅ ∅ ∅ [Sentence.mk {[ (0, 0); (0, 3) ]} 2;
                          Sentence.mk {[ (0, 3); (3, 3) ]} 1]) ∧
  sound {[ (0, 0); (0, 3) ]}
        (AI.visit_safes 0 (AI.visit_mines 0
           (AI.mk 4 4 ∅ ∅ ∅ [Sentence.mk {[ (0, 0); (0, 3) ]} 2;
                             Sentence.mk {[ (0, 3); (3, 3) ]} 1]))) ∧
  AI.mines (AI.visit_safes 0 (AI.visit_mines 0
           (AI.mk 4 4 ∅ ∅ ∅ [Sentence.mk {[ (0, 0); (0, 3) ]} 2;
                             Sentence.mk {[ (0, 3); (3, 3) ]} 1])))
    = {[ (0, 0); (0, 3) ]}.
Proof.
  assert (sound {[ (0, 0); (0, 3) ]}
            (AI.mk 4 4 ∅ ∅ ∅ [Sentence.mk {[ (0, 0); (0, 3) ]} 2;
                              Sentence.mk {[ (0, 3); (3, 3) ]} 1])) as H.
  { split_and!; [set_solver | set_solver |].
    intros [|[|j]] x; simpl; [intros [= <-]; evaluate.. | done]. }
  split; [exact H|].
  split; [exact (proj2 (proj2 (direct_inference_sound _ 0%nat _ H)))|].
  evaluate.
Defined.

(** ** Hints that are processed to the end *)

Section settled.
Implicit Types (st : AI.t) (X N : gset Cell) (x snew : Sentence.t).

(** While the new sentence waits, lines 231-242 do nothing at the other
    positions. *)
Lemma visit_subset_waiting s i st snew :
  waiting s st snew → i ≠ s → AI.visit_subset s i st = st.
Proof.
  intros (Hs & _ & Hne & Ho) Hi. unfold AI.visit_subset, AI.with_sentence.
  destruct (AI.knowledge st !! i) as [x|] eqn:Hx; [|done]. rewrite Hs.
  destruct (Sentence.eqb x snew); [done|].
  case_decide as Hsub; [|done]. exfalso.
  destruct (Ho i x Hx Hi) as [_ Hd]. set_solver.
Qed.

Lemma waiting_visit s i st snew :
  waiting s st snew → safe_kind st snew ∨ mine_kind st snew → (i < s)%nat →
  waiting s (AI.visit s i st) snew ∧
  (safe_kind (AI.visit s i st) snew ∨ mine_kind (AI.visit s i st) snew).
Proof.
  intros Hw Hk Hi. unfold AI.visit.
  assert (waiting s (AI.visit_mines i st) snew ∧
          (safe_kind (AI.visit_mines i st) snew ∨
           mine_kind (AI.visit_mines i st) snew)) as [Hw1 Hk1].
  { unfold AI.visit_mines, AI.with_sentence.
    destruct (AI.knowledge st !! i) as [x|] eqn:Hx; [|done].
    case_decide; [|done].
    assert (Sentence.known_mines x ## Sentence.cells snew) as Hd.
    { pose proof (known_mines_subseteq x).
      destruct Hw as (_ & _ & _ & Ho).
      destruct (Ho i x Hx ltac:(lia)). set_solver. }
    split; [by apply waiting_mark_mines | by apply kind_mark_mines]. }
  assert (waiting s (AI.visit_safes i (AI.visit_mines i st)) snew ∧
          (safe_kind (AI.visit_safes i (AI.visit_mines i st)) snew ∨
           mine_kind (AI.visit_safes i (AI.visit_mines i st)) snew))
    as [Hw2 Hk2].
  { unfold AI.visit_safes, AI.with_sentence.
    destruct (AI.knowledge (AI.visit_mines i st) !! i) as [x|] eqn:Hx; [|done].
    case_decide; [|done].
    assert (Sentence.known_safes x ## Sentence.cells snew) as Hd.
    { pose proof (known_safes_subseteq x).
      destruct Hw1 as (_ & _ & _ & Ho).
      destruct (Ho i x Hx ltac:(lia)). set_solver. }
    split; [by apply waiting_mark_safes | by apply kind_mark_safes]. }
  rewrite (visit_subset_waiting s i _ snew) by (done || lia). done.
Qed.

(** The loop ends one step after it has reached the waiting sentence. *)
Lemma scan_waiting s k : ∀ i st,
  (i + k = s)%nat →
  (∃ snew, waiting s st snew ∧ (safe_kind st snew ∨ mine_kind st snew)) →
  ∃ st', AI.scan (k + 2) s i st = Some st' ∧
         length (AI.knowledge st') = S s.
Proof.
  induction k as [|k IH]; intros i st Hik (snew & Hw & Hk).
  - assert (i = s) as -> by lia.
    pose proof Hw as (_ & Hlen & _).
    replace (0 + 2)%nat with 2%nat by done.
    rewrite scan_step by lia. cbn [AI.scan].
    rewrite decide_False by (rewrite length_visit_new; lia).
    eexists. split; [done|]. by rewrite length_visit_new.
  - pose proof Hw as (_ & Hlen & _).
    replace (S k + 2)%nat with (S (k + 2)) by lia. rewrite scan_step by lia.
    apply IH; [lia|]. exists snew. apply waiting_visit; [done | done | lia].
Qed.

Lemma waiting_before_scan N n st :
  all_clean st → N ## AI.safes st ∪ AI.mines st → N ≠ ∅ →
  n = 0 ∨ n = Z.of_nat (size N) →
  ∃ snew, waiting (length (AI.knowledge st)) (before_scan N n st) snew ∧
          (safe_kind (before_scan N n st) snew ∨
           mine_kind (before_scan N n st) snew).
Proof.
  intros Hall Hfresh Hne Hn.
  destruct (tidy_before_scan N n st Hall Hfresh)
    as [Hclean | (_ & snew & Hw & Hk)]; [|by exists snew].
  exfalso.
  assert (Z.of_nat (size N) ≠ 0) as Hsize.
  { intros Hz. apply Hne, leibniz_equiv, size_empty_iff. lia. }
  assert (AI.knowledge (before_scan N n st) !! length (AI.knowledge st)
          = Some (Sentence.mk N n)) as Hlast.
  { unfold before_scan. cbn [AI.knowledge AI.append].
    rewrite lookup_app_r;
      repeat case_decide;
      rewrite ?length_mark_mines, ?length_mark_safes; try done;
      by rewrite Nat.sub_diag. }
  pose proof (Hclean _ _ Hlast) as Hc. unfold clean in Hc. simpl in Hc.
  assert (N ⊆ AI.safes (before_scan N n st) ∪ AI.mines (before_scan N n st))
    as Hin; [|set_solver].
  unfold before_scan. cbn [AI.safes AI.mines AI.append].
  destruct Hn as [->| ->].
  - rewrite (decide_True (P := 0 = 0)) by done.
    rewrite decide_False by lia.
    rewrite safes_mark_safes. set_solver.
  - rewrite (decide_False (P := Z.of_nat (size N) = 0)) by done.
    rewrite decide_True by done. rewrite mines_mark_mines. set_solver.
Qed.

End settled.

(** X9.  In any state that a new agent has reached, a hint that settles
    its whole neighbourhood, count 0 or count equal to the non-zero
    number of candidate cells, is processed to the end: [add_knowledge]
    returns after one pass over the list, which is one sentence longer. *)
Theorem settling_hint_returns fuel (ops : list op) (h w : Z) (st : AI.t)
    (cell : Cell) (count : Z) :
  run fuel ops (AI.init h w) = Some st →
  AI.neighbors_of (AI.mark_safe cell (AI.add_move cell st)) cell ≠ ∅ →
  count = 0 ∨
  count = Z.of_nat (size (AI.neighbors_of
                            (AI.mark_safe cell (AI.add_move cell st)) cell)) →
  ∃ st', AI.add_knowledge (length (AI.knowledge st) + 2) cell count st
           = Some st' ∧
         length (AI.knowledge st') = S (length (AI.knowledge st)).
Proof.
  intros Hrun Hne Hcount.
  pose proof (all_clean_run _ _ _ _ (all_clean_init h w) Hrun) as Hall.
  unfold AI.add_knowledge. rewrite conclude_eq. cbv zeta.
  rewrite neighbors_count_eq.
  set (st0 := AI.mark_safe cell (AI.add_move cell st)) in *.
  assert (length (AI.knowledge st0) = length (AI.knowledge st)) as Hlen.
  { unfold st0. simpl. by rewrite length_fmap. }
  rewrite <- Hlen.
  apply scan_waiting; [lia|].
  apply waiting_before_scan; try done.
  - by apply all_clean_mark_safe, all_clean_add_move.
  - apply neighbors_of_fresh.
Qed.

(** An instance: after one hint on a 3×8 board, the hint 0 for (0,4). *)
Lemma settling_hint_returns_witness :
  ∃ st st',
    run 2 [AddKnowledge (0, 1) 1] (AI.init 3 8) = Some st ∧
    AI.add_knowledge (length (AI.knowledge st) + 2) (0, 4) 0 st = Some st' ∧
    length (AI.knowledge st') = 2%nat.
Proof.
  eexists.
  match goal with |- ∃ st', ?R = Some ?st ∧ _ =>
    assert (R = Some st) as Hrun by evaluate
  end.
  match type of Hrun with _ = Some ?st =>
    destruct (settling_hint_returns 2 [AddKnowledge (0, 1) 1] 3 8 st
                (0, 4) 0 Hrun) as (st' & Hadd & Hlen)
  end.
  - apply (bool_decide_unpack _). vm_compute. exact I.
  - by left.
  - exists st'. split; [exact Hrun|]. split; [exact Hadd|].
    rewrite Hlen. evaluate.
Defined.

(** X10.  The first hint given to a new agent is always processed: the
    loop visits the one sentence and stops, whatever the cell and the
    count. *)
Theorem first_hint_processed (h w : Z) (cell : Cell) (count : Z) :
  ∃ st', AI.add_knowledge 2 cell count (AI.init h w) = Some st' ∧
         length (AI.knowledge st') = 1%nat ∧
         AI.moves_made st' = {[cell]}.
Proof.
  destruct (first_hint_returns h w cell count) as [st' H].
  exists st'. split; [done|]. split.
  - unfold AI.add_knowledge in H. rewrite conclude_eq in H. cbv zeta in H.
    cbn [AI.knowledge AI.mark_safe AI.add_move AI.init fmap list_fmap length]
      in H.
    rewrite scan_step in H.
    2: { unfold before_scan. cbn [AI.knowledge AI.append].
         rewrite length_app. simpl. lia. }
    simpl in H. case_decide as Hd; [done|]. injection H as <-.
    rewrite length_visit_new in *.
    unfold before_scan. cbn [AI.knowledge AI.append]. rewrite length_app.
    repeat case_decide;
      by rewrite ?length_mark_mines, ?length_mark_safes.
  - apply frame_add_knowledge in H as [= _ _ ->]. simpl. set_solver.
Qed.

(** ** Choosing a move *)

Section choosing.
Implicit Types (st : AI.t) (c : Cell) (order : list Cell).

Lemma choice_one {A : Type} (rnd : nat) (a : A) : AI.choice rnd [a] = Some a.
Proof. unfold AI.choice. cbn [length]. by rewrite Nat.mod_1_r. Qed.

Lemma choice_elem_of {A : Type} (rnd : nat) (l : list A) :
  l ≠ [] → ∃ a, AI.choice rnd l = Some a ∧ a ∈ l.
Proof.
  intros Hl. unfold AI.choice.
  destruct (lookup_lt_is_Some_2 l (rnd `mod` length l)%nat) as [a Ha].
  { apply Nat.mod_upper_bound. by destruct l. }
  exists a. split; [done|]. by eapply list_elem_of_lookup_2.
Qed.

Lemma safe_move_loop_first rnd st order :
  AI.safe_move_loop rnd st order [] =
  head (filter (λ c, c ∉ AI.moves_made st) order).
Proof.
  induction order as [|c order IH]; [done|].
  cbn [AI.safe_move_loop]. rewrite filter_cons.
  case_decide; [|done]. simpl. apply choice_one.
Qed.

End choosing.

(** X11.  [make_safe_move] returns the first cell, in the order in which
    the set [safes] is iterated, that is not in [moves_made]; the random
    draw plays no part.  So the result is a cell of [safes] that has not
    been played, and it is [None] exactly when every safe cell has been
    played. *)
Theorem make_safe_move_first_unplayed (order : list Cell) (rnd : nat)
    (st : AI.t) :
  order ≡ₚ elements (AI.safes st) →
  AI.make_safe_move order rnd st =
    head (filter (λ c, c ∉ AI.moves_made st) order) ∧
  (∀ c, AI.make_safe_move order rnd st = Some c →
        c ∈ AI.safes st ∧ c ∉ AI.moves_made st) ∧
  (AI.make_safe_move order rnd st = None ↔
   AI.safes st ⊆ AI.moves_made st).
Proof.
  intros Hperm. unfold AI.make_safe_move. rewrite safe_move_loop_first.
  assert (∀ c, c ∈ order ↔ c ∈ AI.safes st) as Hin.
  { intros c. by rewrite Hperm, elem_of_elements. }
  split; [done|]. split.
  - intros c Hc%head_Some_elem_of%list_elem_of_filter.
    destruct Hc as [Hnot Hc]. split; [by apply Hin | done].
  - rewrite head_None. split.
    + intros Hnil c Hc%Hin. destruct (decide (c ∈ AI.moves_made st)); [done|].
      assert (c ∈ filter (λ c, c ∉ AI.moves_made st) order) as Hf
        by by apply list_elem_of_filter.
      rewrite Hnil in Hf. by apply elem_of_nil in Hf.
    + intros Hsub. apply elem_of_nil_inv. intros c [Hnot Hc%Hin]%list_elem_of_filter.
      apply Hnot. by apply Hsub.
Qed.

(** An instance: safes {(0,0),(2,2)}, of which (0,0) has been played. *)
Lemma make_safe_move_first_unplayed_witness :
  AI.make_safe_move
    (elements (AI.safes (AI.mk 4 4 {[ (0, 0) ]} ∅ {[ (0, 0); (2, 2) ]} [])))
    5 (AI.mk 4 4 {[ (0, 0) ]} ∅ {[ (0, 0); (2, 2) ]} []) = Some (2, 2).
Proof.
  rewrite (proj1 (make_safe_move_first_unplayed _ 5 _ (reflexivity _))).
  evaluate.
Defined.

(** X12.  A cell returned by [make_random_move] lies in the first
    [height - 1] rows and [width - 1] columns, never in the last row or
    column; it is not a known mine once a move has been made, but it may
    have been played already.  The result is [None] exactly when no cell
    of that part of the board passes the test of line 277. *)
Theorem make_random_move_range (rnd : nat) (st : AI.t) :
  (∀ c, AI.make_random_move rnd st = Some c →
        (0 ≤ fst c < AI.height st - 1) ∧ (0 ≤ snd c < AI.width st - 1) ∧
        (AI.moves_made st ≠ ∅ → c ∉ AI.mines st)) ∧
  (AI.make_random_move rnd st = None ↔
   ∀ c, (0 ≤ fst c < AI.height st - 1) → (0 ≤ snd c < AI.width st - 1) →
        c ∈ AI.py_and (AI.moves_made st) (AI.mines st)).
Proof.
  unfold AI.make_random_move.
  destruct (AI.possible_moves st) as [|c0 l] eqn:E.
  - cbn [length]. destruct (decide (0%nat ≠ 0%nat)) as [Hn|_]; [by destruct Hn|].
    split_and!.
    + done.
    + split; [|done]. intros _ c Hf Hg.
      destruct (decide (c ∈ AI.py_and (AI.moves_made st) (AI.mines st)))
        as [|Hn]; [done|].
      assert (c ∈ AI.possible_moves st) as Hc
        by by apply elem_of_possible_moves.
      rewrite E in Hc. by apply elem_of_nil in Hc.
  - rewrite decide_True by done.
    destruct (choice_elem_of rnd (c0 :: l)) as (a & Ha & Hin); [done|].
    rewrite Ha. rewrite <- E in Hin.
    apply elem_of_possible_moves in Hin as (Hf & Hg & Hnot).
    split_and!.
    + intros c [= <-]. split; [done|]. split; [done|].
      intros Hne. by rewrite py_and_nonempty in Hnot by done.
    + split; [done|]. intros Hall. exfalso. apply Hnot. by apply Hall.
Qed.

(** ** Building the board *)

Section building.
Implicit Types (g : Minesweeper.game) (b : list (list bool)).

Lemma foldl_snoc_replicate {A B : Type} (x : A) (acc : list A) (l : list B) :
  foldl (λ acc _, acc ++ [x]) acc l = acc ++ replicate (length l) x.
Proof.
  revert acc. induction l as [|y l IH]; intros acc; simpl.
  - by rewrite app_nil_r.
  - rewrite IH. by rewrite <- app_assoc.
Qed.

Lemma empty_row_replicate (w : Z) :
  Minesweeper.empty_row w = replicate (Z.to_nat w) false.
Proof.
  unfold Minesweeper.empty_row. by rewrite foldl_snoc_replicate, length_seqZ.
Qed.

Lemma empty_board_replicate (h w : Z) :
  Minesweeper.empty_board h w =
  replicate (Z.to_nat h) (replicate (Z.to_nat w) false).
Proof.
  unfold Minesweeper.empty_board.
  by rewrite foldl_snoc_replicate, length_seqZ, empty_row_replicate.
Qed.

Lemma placed_start (h w : Z) :
  0 ≤ h → 0 ≤ w →
  placed {| Minesweeper.grid :=
              {| Minesweeper.height := h; Minesweeper.width := w;
                 Minesweeper.board := Minesweeper.empty_board h w |};
            Minesweeper.mines := ∅; Minesweeper.mines_found := ∅ |}.
Proof.
  intros Hh Hw. rewrite empty_board_replicate. split.
  - split; simpl.
    + rewrite length_replicate. lia.
    + apply Forall_replicate. rewrite length_replicate. lia.
  - intros i j. simpl. split; [set_solver|]. intros (_ & _ & Hm).
    unfold mine_at in Hm. simpl in Hm.
    destruct (replicate _ _ !! Z.to_nat i) as [row|] eqn:E; [|done].
    apply lookup_replicate in E as [-> _].
    destruct (replicate _ _ !! Z.to_nat j) as [x|] eqn:E'; [|done].
    apply lookup_replicate in E' as [-> _]. done.
Qed.

Lemma randrange_range (r : nat) (n i : Z) :
  Minesweeper.randrange r n = Some i → 0 ≤ i < n.
Proof.
  unfold Minesweeper.randrange. case_decide; [|done]. intros [= <-].
  by apply Z.mod_pos_bound.
Qed.

Lemma is_mine_in_bounds (t : Minesweeper.t) (i j : Z) :
  Minesweeper.well_formed t →
  0 ≤ i < Minesweeper.height t → 0 ≤ j < Minesweeper.width t →
  Minesweeper.is_mine t (i, j) = Ok (mine_at t i j).
Proof.
  intros wf Hi Hj. rewrite (is_mine_wrap t wf).
  rewrite decide_True by lia. by rewrite !Z.mod_small by lia.
Qed.

Lemma mine_at_set_mine (t : Minesweeper.t) (i j i' j' : Z) :
  Minesweeper.well_formed t →
  0 ≤ i < Minesweeper.height t → 0 ≤ j < Minesweeper.width t →
  0 ≤ i' → 0 ≤ j' →
  mine_at {| Minesweeper.height := Minesweeper.height t;
             Minesweeper.width := Minesweeper.width t;
             Minesweeper.board := Minesweeper.set_mine (Minesweeper.board t) i j |}
          i' j' =
  if decide ((i', j') = (i, j)) then true else mine_at t i' j'.
Proof.
  intros wf Hi Hj Hi' Hj'.
  destruct (board_row t wf i Hi) as (row & Hrow & Hlen).
  unfold mine_at, Minesweeper.set_mine. simpl. rewrite Hrow.
  destruct (decide (Z.to_nat i' = Z.to_nat i)) as [Heq|Hne].
  - rewrite Heq, list_lookup_insert_eq by (by eapply lookup_lt_Some).
    assert (i' = i) as -> by lia. rewrite Hrow.
    destruct (decide (Z.to_nat j' = Z.to_nat j)) as [Hj2|Hj2].
    + rewrite Hj2, list_lookup_insert_eq by lia.
      assert (j' = j) as -> by lia. by rewrite decide_True.
    + rewrite list_lookup_insert_ne by done.
      rewrite decide_False; [done|]. intros [= ?]. lia.
  - rewrite list_lookup_insert_ne by done.
    rewrite decide_False; [done|]. intros [= ? ?]. lia.
Qed.

Lemma well_formed_set_mine (t : Minesweeper.t) (i j : Z) :
  Minesweeper.well_formed t →
  Minesweeper.well_formed
    {| Minesweeper.height := Minesweeper.height t;
       Minesweeper.width := Minesweeper.width t;
       Minesweeper.board := Minesweeper.set_mine (Minesweeper.board t) i j |}.
Proof.
  intros [Hh Hw]. unfold Minesweeper.set_mine.
  destruct (Minesweeper.board t !! Z.to_nat i) as [row|] eqn:E; [|done].
  split; simpl.
  - by rewrite length_insert.
  - apply Forall_insert; [done|]. rewrite length_insert.
    rewrite Forall_forall in Hw. apply Hw. by eapply list_elem_of_lookup_2.
Qed.

Lemma placed_add_mine g (i j : Z) :
  placed g →
  0 ≤ i < Minesweeper.height (Minesweeper.grid g) →
  0 ≤ j < Minesweeper.width (Minesweeper.grid g) →
  placed (Minesweeper.add_mine i j g).
Proof.
  intros [wf Hm] Hi Hj. split.
  - by apply well_formed_set_mine.
  - intros i' j'. unfold Minesweeper.add_mine. cbn [Minesweeper.grid
      Minesweeper.mines Minesweeper.height Minesweeper.width].
    rewrite elem_of_union, elem_of_singleton, Hm. split.
    + intros [[= -> ->]|(Hi' & Hj' & Hat)].
      * split; [done|]. split; [done|].
        rewrite mine_at_set_mine by (done || lia). by rewrite decide_True.
      * split; [done|]. split; [done|].
        rewrite mine_at_set_mine by (done || lia). case_decide; done.
    + intros (Hi' & Hj' & Hat).
      rewrite mine_at_set_mine in Hat by (done || lia).
      case_decide as Heq; [left; done | right; done].
Qed.

(** What [place] keeps and what it ends with. *)
Lemma place_built draws target g g' :
  placed g → Minesweeper.place draws target g = Minesweeper.Built g' →
  placed g' ∧
  Z.of_nat (size (Minesweeper.mines g')) = target ∧
  Minesweeper.height (Minesweeper.grid g') =
    Minesweeper.height (Minesweeper.grid g) ∧
  Minesweeper.width (Minesweeper.grid g') =
    Minesweeper.width (Minesweeper.grid g) ∧
  Minesweeper.mines_found g' = Minesweeper.mines_found g.
Proof.
  revert g. induction draws as [|[ri rj] draws IH]; intros g Hp;
    cbn [Minesweeper.place].
  - case_decide; [|done]. by intros [= <-].
  - case_decide; [by intros [= <-]|].
    destruct (Minesweeper.randrange ri _) as [i|] eqn:Ei; [|done].
    destruct (Minesweeper.randrange rj _) as [j|] eqn:Ej; [|done].
    apply randrange_range in Ei, Ej.
    rewrite (is_mine_in_bounds _ i j) by (done || apply Hp).
    destruct (mine_at _ i j); [by apply IH|].
    intros H'. apply IH in H'; [|by apply placed_add_mine].
    by destruct H' as (? & ? & ? & ? & ?).
Qed.

End building.

Section counting.
Implicit Types (t : Minesweeper.t) (cell c : Cell).

Lemma block_offsets cell : block cell = shift cell <$> offsets.
Proof.
  unfold block, Minesweeper.around, offsets, shift. simpl.
  repeat (f_equal; try (f_equal; lia)).
Qed.

Lemma elem_of_offsets (o : Z * Z) :
  o ∈ offsets ↔ (-1 ≤ fst o ≤ 1) ∧ (-1 ≤ snd o ≤ 1).
Proof.
  destruct o as [a b]. unfold offsets. rewrite !elem_of_cons, elem_of_nil.
  simpl. split.
  - intros H. repeat (destruct H as [[= -> ->]|H]; [lia|]). done.
  - intros [Ha Hb].
    assert (a = -1 ∨ a = 0 ∨ a = 1) as [->|[->| ->]] by lia;
      assert (b = -1 ∨ b = 0 ∨ b = 1) as [->|[->| ->]] by lia;
      repeat first [left; reflexivity | right].
Qed.

Lemma elem_of_block cell c :
  c ∈ block cell ↔
  (fst cell - 1 ≤ fst c ≤ fst cell + 1) ∧ (snd cell - 1 ≤ snd c ≤ snd cell + 1).
Proof.
  rewrite block_offsets, list_elem_of_fmap. split.
  - intros (o & -> & Ho%elem_of_offsets). unfold shift. simpl. lia.
  - intros [Hf Hs]. exists (fst c - fst cell, snd c - snd cell). split.
    + unfold shift. destruct c. simpl. f_equal; lia.
    + apply elem_of_offsets. simpl. lia.
Qed.

Lemma NoDup_block cell : NoDup (block cell).
Proof.
  rewrite block_offsets. apply NoDup_fmap_2.
  - intros [a b] [a' b'] [= ? ?]. f_equal; lia.
  - apply (bool_decide_unpack _). vm_compute. exact I.
Qed.

Lemma tally_range t cell c : 0 ≤ tally t cell c ≤ 1.
Proof. unfold tally. repeat case_match; lia. Qed.

Lemma tally_self t cell : tally t cell cell = 0.
Proof. unfold tally. by rewrite decide_True. Qed.

Lemma tally_one t cell c :
  tally t cell c = 1 ↔
  c ≠ cell ∧ (0 ≤ fst c < Minesweeper.height t) ∧
  (0 ≤ snd c < Minesweeper.width t) ∧ mine_at t (fst c) (snd c) = true.
Proof.
  unfold tally.
  destruct (decide (c = cell)) as [Heq|Hne]; [split; [lia | tauto]|].
  destruct (decide _) as [[Hi Hj]|Hout]; [|split; [lia | tauto]].
  destruct (mine_at t (fst c) (snd c)); split; try done; try lia;
    try (by intros (_ & _ & _ & ?)).
Qed.

Lemma foldl_tally (f : Cell → Z) (a : Z) (l : list Cell) :
  (∀ c, 0 ≤ f c ≤ 1) →
  foldl (λ n c, n + f c) a l =
  a + Z.of_nat (length (filter (λ c, f c = 1) l)).
Proof.
  intros Hf. revert a. induction l as [|c l IH]; intros a; simpl; [lia|].
  rewrite IH, filter_cons. pose proof (Hf c).
  case_decide as H1; simpl; lia.
Qed.

Lemma block_count_filter t cell :
  block_count t cell =
  Z.of_nat (length (filter (λ c, tally t cell c = 1) (block cell))).
Proof.
  unfold block_count. rewrite foldl_tally by apply tally_range. lia.
Qed.

End counting.

(** X13.  When [Minesweeper.__init__] returns, for a height and a width
    that are not negative, the board has [height] rows of [width]
    entries, [mines] holds exactly the requested number of cells, all of
    them on the board, the [True] entries of the board are exactly the
    cells of [mines], and [mines_found] is empty. *)
Theorem init_places_mines (draws : list (nat * nat)) (h w target : Z)
    (g : Minesweeper.game) :
  0 ≤ h → 0 ≤ w →
  Minesweeper.init draws h w target = Minesweeper.Built g →
  Minesweeper.height (Minesweeper.grid g) = h ∧
  Minesweeper.width (Minesweeper.grid g) = w ∧
  Minesweeper.well_formed (Minesweeper.grid g) ∧
  Z.of_nat (size (Minesweeper.mines g)) = target ∧
  (∀ i j, (i, j) ∈ Minesweeper.mines g ↔
          (0 ≤ i < h) ∧ (0 ≤ j < w) ∧
          mine_at (Minesweeper.grid g) i j = true) ∧
  Minesweeper.mines_found g = ∅ ∧
  Minesweeper.won g = bool_decide (target = 0).
Proof.
  intros Hh Hw Hinit. unfold Minesweeper.init in Hinit.
  apply place_built in Hinit as ([wf Hm] & Hsize & Hh' & Hw' & Hf);
    [|by apply placed_start].
  simpl in Hh', Hw', Hf. split_and!; try done.
  - intros i j. by rewrite Hm, Hh', Hw'.
  - unfold Minesweeper.won. rewrite Hf.
    destruct (decide (target = 0)) as [Ht|Ht].
    + rewrite (bool_decide_eq_true_2 (target = 0)) by done.
      apply bool_decide_eq_true_2. symmetry.
      apply leibniz_equiv, size_empty_iff. lia.
    + rewrite (bool_decide_eq_false_2 (target = 0)) by done.
      apply bool_decide_eq_false_2. intros Heq. rewrite <- Heq in Hsize.
      rewrite size_empty in Hsize. lia.
Qed.

(** An instance: a 2×2 board with two mines, the second draw hitting
    the cell of the first. *)
Lemma init_places_mines_witness :
  ∃ g, Minesweeper.init [(0, 0); (2, 4); (1, 3)]%nat 2 2 2
         = Minesweeper.Built g ∧
       Minesweeper.grid g = two_by_two ∧
       Minesweeper.mines g = {[ (0, 0); (1, 1) ]} ∧
       Z.of_nat (size (Minesweeper.mines g)) = 2.
Proof.
  eexists. split; [evaluate|]. split; [evaluate|]. split; [evaluate|].
  refine (proj1 (proj2 (proj2 (proj2
    (init_places_mines [(0, 0); (2, 4); (1, 3)]%nat 2 2 2 _
       ltac:(lia) ltac:(lia) _))))).
  evaluate.
Defined.

(** X14.  On the game that [__init__] has built, [is_mine] of a cell of
    the board tells whether the cell is in [mines], and [nearby_mines]
    of any cell is the number of cells of [mines] among the up to eight
    cells around it. *)
Theorem queries_agree_with_mines (draws : list (nat * nat)) (h w target : Z)
    (g : Minesweeper.game) (cell : Cell) :
  0 ≤ h → 0 ≤ w →
  Minesweeper.init draws h w target = Minesweeper.Built g →
  (0 ≤ fst cell < h → 0 ≤ snd cell < w →
   Minesweeper.is_mine (Minesweeper.grid g) cell =
     Ok (bool_decide (cell ∈ Minesweeper.mines g))) ∧
  Minesweeper.nearby_mines (Minesweeper.grid g) cell =
    Ok (Z.of_nat (size (filter (next_to cell) (Minesweeper.mines g)))).
Proof.
  intros Hh Hw Hinit. unfold Minesweeper.init in Hinit.
  apply place_built in Hinit as ([wf Hm] & _ & Hh' & Hw' & _);
    [|by apply placed_start].
  simpl in Hh', Hw'. split.
  - intros Hi Hj. destruct cell as [i j]. cbn [fst snd] in *.
    rewrite is_mine_in_bounds by (done || lia). f_equal.
    destruct (mine_at (Minesweeper.grid g) i j) eqn:E.
    + symmetry. apply bool_decide_eq_true_2. apply Hm. split_and!; (done || lia).
    + symmetry. apply bool_decide_eq_false_2. intros (_ & _ & Hat)%Hm.
      congruence.
  - rewrite (nearby_mines_block _ wf), block_count_filter. do 2 f_equal.
    rewrite <- (size_list_to_set (C := gset Cell))
      by apply NoDup_filter, NoDup_block.
    f_equal. apply set_eq. intros [i j].
    rewrite elem_of_list_to_set, list_elem_of_filter, elem_of_filter,
      elem_of_block, tally_one, Hm.
    unfold next_to. simpl. tauto.
Qed.

(** An instance: the 2×2 board with mines at (0,0) and (1,1). *)
Lemma queries_agree_with_mines_witness :
  ∃ g, Minesweeper.init [(0, 0); (2, 4); (1, 3)]%nat 2 2 2
         = Minesweeper.Built g ∧
       Minesweeper.is_mine (Minesweeper.grid g) (1, 1) = Ok true ∧
       Minesweeper.nearby_mines (Minesweeper.grid g) (0, 1) = Ok 2.
Proof.
  eexists. split; [evaluate|].
  match goal with |- Minesweeper.is_mine (Minesweeper.grid ?g) _ = _ ∧ _ =>
    destruct (queries_agree_with_mines [(0, 0); (2, 4); (1, 3)]%nat 2 2 2
                g (1, 1) ltac:(lia) ltac:(lia) ltac:(evaluate)) as [Hm _];
    destruct (queries_agree_with_mines [(0, 0); (2, 4); (1, 3)]%nat 2 2 2
                g (0, 1) ltac:(lia) ltac:(lia) ltac:(evaluate)) as [_ Hn]
  end.
  split.
  - rewrite Hm by (simpl; lia). evaluate.
  - rewrite Hn. evaluate.
Defined.

(** X15.  On a board of the right shape [nearby_mines] answers for
    every cell, on the board or not, with a number between 0 and 8. *)
Theorem nearby_mines_at_most_eight (t : Minesweeper.t) (cell : Cell) :
  Minesweeper.well_formed t →
  ∃ n, Minesweeper.nearby_mines t cell = Ok n ∧ 0 ≤ n ≤ 8.
Proof.
  intros wf. rewrite (nearby_mines_block _ wf). eexists. split; [done|].
  unfold block_count. rewrite block_offsets. unfold offsets, shift.
  cbn [fmap list_fmap foldl fst snd].
  pose proof (tally_self t cell) as H0.
  replace (fst cell + 0, snd cell + 0) with cell
    by (destruct cell; simpl; f_equal; lia).
  rewrite H0.
  repeat match goal with
         | |- context [tally t cell ?c] =>
             let H := fresh in
             pose proof (tally_range t cell c) as H;
             generalize dependent (tally t cell c); intros
         end.
  lia.
Qed.

(** An instance: the 2×2 board, asked far outside. *)
Lemma nearby_mines_at_most_eight_witness :
  ∃ n, Minesweeper.nearby_mines two_by_two (7, -3) = Ok n ∧ 0 ≤ n ≤ 8.
Proof.
  apply nearby_mines_at_most_eight.
  split; [reflexivity | repeat constructor].
Defined.

Section room.
Implicit Types (g : Minesweeper.game).

Lemma length_bind_const {A B : Type} (f : A → list B) (k : nat) (l : list A) :
  (∀ x, length (f x) = k) → length (l ≫= f) = (length l * k)%nat.
Proof.
  intros Hf. induction l as [|x l IH]; [done|].
  rewrite bind_cons, length_app, Hf, IH. simpl. lia.
Qed.

Lemma length_all_cells (h w : Z) :
  length (all_cells h w) = (Z.to_nat h * Z.to_nat w)%nat.
Proof.
  unfold all_cells.
  rewrite (length_bind_const _ (Z.to_nat w)); [by rewrite length_seqZ|].
  intros i. rewrite (length_bind_const _ 1%nat) by done.
  rewrite length_seqZ. lia.
Qed.

Lemma elem_of_all_cells (h w i j : Z) :
  (i, j) ∈ all_cells h w ↔ (0 ≤ i < h) ∧ (0 ≤ j < w).
Proof.
  unfold all_cells. rewrite list_elem_of_bind.
  setoid_rewrite list_elem_of_bind. setoid_rewrite elem_of_seqZ.
  setoid_rewrite list_elem_of_singleton. split.
  - intros (i' & (j' & [= -> ->] & Hj) & Hi). lia.
  - intros [Hi Hj]. exists i. split; [|lia]. exists j. split; [done | lia].
Qed.

Lemma placed_size g :
  placed g →
  0 ≤ Minesweeper.height (Minesweeper.grid g) →
  0 ≤ Minesweeper.width (Minesweeper.grid g) →
  Z.of_nat (size (Minesweeper.mines g)) ≤
  Minesweeper.height (Minesweeper.grid g) *
  Minesweeper.width (Minesweeper.grid g).
Proof.
  intros [_ Hm] Hh Hw.
  set (h := Minesweeper.height (Minesweeper.grid g)) in *.
  set (w := Minesweeper.width (Minesweeper.grid g)) in *.
  assert (Minesweeper.mines g ⊆ list_to_set (all_cells h w)) as Hsub.
  { intros [i j] Hin%Hm. rewrite elem_of_list_to_set, elem_of_all_cells. tauto. }
  apply subseteq_size in Hsub.
  pose proof (size_list_to_set_le (all_cells h w)) as Hle.
  rewrite length_all_cells in Hle. nia.
Qed.

Lemma place_unfinished draws target g :
  placed g →
  0 < Minesweeper.height (Minesweeper.grid g) →
  0 < Minesweeper.width (Minesweeper.grid g) →
  target < 0 ∨
  Minesweeper.height (Minesweeper.grid g) *
  Minesweeper.width (Minesweeper.grid g) < target →
  Minesweeper.place draws target g = Minesweeper.Unfinished.
Proof.
  revert g. induction draws as [|[ri rj] draws IH]; intros g Hp Hh Hw Ht;
    cbn [Minesweeper.place].
  - rewrite decide_False; [done|].
    pose proof (placed_size g Hp ltac:(lia) ltac:(lia)). lia.
  - rewrite decide_False
      by (pose proof (placed_size g Hp ltac:(lia) ltac:(lia)); lia).
    unfold Minesweeper.randrange. rewrite !decide_True by done.
    rewrite is_mine_in_bounds
      by (apply Hp || by apply Z.mod_pos_bound).
    destruct (mine_at _ _ _); [by apply IH|].
    apply IH; try done.
    apply placed_add_mine; [done|by apply Z.mod_pos_bound..].
Qed.

End room.

(** X16.  [__init__] places no more mines than the board has cells:
    asked for a negative number of mines, or for more than
    [height * width], its loop goes on for ever, whatever the random
    generator draws. *)
Theorem init_without_room (draws : list (nat * nat)) (h w target : Z) :
  0 < h → 0 < w → target < 0 ∨ h * w < target →
  Minesweeper.init draws h w target = Minesweeper.Unfinished.
Proof.
  intros Hh Hw Ht. unfold Minesweeper.init.
  apply place_unfinished; simpl; [|done..].
  apply placed_start; lia.
Qed.

(** An instance: five mines on a 2×2 board. *)
Lemma init_without_room_witness :
  Minesweeper.init [(0, 0); (1, 1); (0, 1); (1, 0); (3, 3); (2, 1)]%nat 2 2 5
  = Minesweeper.Unfinished.
Proof. apply init_without_room; lia. Defined.

(** X17.  On a board without rows or without columns [__init__] raises
    the [ValueError] of [random.randrange] as soon as it has to place a
    mine; asked for no mine, it draws nothing and returns at once,
    whatever the height and the width. *)
Theorem init_on_empty_board (d : nat * nat) (draws : list (nat * nat))
    (h w target : Z) :
  h ≤ 0 ∨ w ≤ 0 →
  (target ≠ 0 →
   Minesweeper.init (d :: draws) h w target = Minesweeper.ValueError) ∧
  Minesweeper.init (d :: draws) h w 0 =
    Minesweeper.Built
      {| Minesweeper.grid :=
           {| Minesweeper.height := h; Minesweeper.width := w;
              Minesweeper.board := Minesweeper.empty_board h w |};
         Minesweeper.mines := ∅; Minesweeper.mines_found := ∅ |}.
Proof.
  intros Hhw. unfold Minesweeper.init. destruct d as [ri rj].
  cbn [Minesweeper.place Minesweeper.mines Minesweeper.grid
       Minesweeper.height Minesweeper.width].
  rewrite size_empty. split.
  - intros Ht. rewrite decide_False by lia.
    unfold Minesweeper.randrange.
    destruct (decide (0 < h)); [|done].
    by rewrite decide_False by lia.
  - by rewrite decide_True.
Qed.

(** An instance: three columns, no row, one mine. *)
Lemma init_on_empty_board_witness :
  Minesweeper.init [(4, 2)]%nat 0 3 1 = Minesweeper.ValueError.
Proof.
  apply (init_on_empty_board (4, 2)%nat [] 0 3 1); [left|]; lia.
Defined.

(** ** Marks in any order *)

Section composing.
Implicit Types (s : Sentence.t) (st : AI.t) (a b c : Cell).

Lemma sentence_eq s1 s2 :
  Sentence.cells s1 = Sentence.cells s2 →
  Sentence.count s1 = Sentence.count s2 → s1 = s2.
Proof. destruct s1, s2. simpl. by intros -> ->. Qed.

Lemma mark_mine_safe_comm a b s :
  a ≠ b →
  Sentence.mark_mine a (Sentence.mark_safe b s) =
  Sentence.mark_safe b (Sentence.mark_mine a s).
Proof.
  intros Hab. apply sentence_eq.
  - rewrite !mark_mine_cells, !mark_safe_cells, mark_mine_cells. set_solver.
  - rewrite mark_safe_count. unfold Sentence.mark_mine.
    rewrite mark_safe_cells.
    destruct (decide (a ∈ Sentence.cells s)) as [Ha|Ha].
    + rewrite decide_True by set_solver. simpl. by rewrite mark_safe_count.
    + rewrite decide_False by set_solver. by rewrite mark_safe_count.
Qed.

Lemma mark_mine_mine_comm a b s :
  Sentence.mark_mine a (Sentence.mark_mine b s) =
  Sentence.mark_mine b (Sentence.mark_mine a s).
Proof.
  destruct (decide (a = b)) as [->|Hab]; [done|].
  rewrite !mark_mine_closed.
  rewrite (without_mines_twice {[a]} b), (without_mines_twice {[b]} a)
    by set_solver.
  f_equal. set_solver.
Qed.

Lemma mark_safe_safe_comm a b s :
  Sentence.mark_safe a (Sentence.mark_safe b s) =
  Sentence.mark_safe b (Sentence.mark_safe a s).
Proof.
  apply sentence_eq.
  - rewrite !mark_safe_cells. set_solver.
  - by rewrite !mark_safe_count.
Qed.

Lemma mark_mine_again a s :
  Sentence.mark_mine a (Sentence.mark_mine a s) = Sentence.mark_mine a s.
Proof.
  unfold Sentence.mark_mine at 1. rewrite mark_mine_cells.
  by rewrite decide_False by set_solver.
Qed.

Lemma mark_safe_again a s :
  Sentence.mark_safe a (Sentence.mark_safe a s) = Sentence.mark_safe a s.
Proof.
  unfold Sentence.mark_safe at 1. rewrite mark_safe_cells.
  by rewrite decide_False by set_solver.
Qed.

End composing.

(** X18.  Marking is idempotent, and marks of different cells commute:
    the state after [mark_mine] and [mark_safe] calls on distinct cells
    does not depend on their order, and a repeated call changes
    nothing. *)
Theorem marks_commute (a b : Cell) (st : AI.t) :
  a ≠ b →
  AI.mark_mine a (AI.mark_safe b st) = AI.mark_safe b (AI.mark_mine a st) ∧
  AI.mark_mine a (AI.mark_mine b st) = AI.mark_mine b (AI.mark_mine a st) ∧
  AI.mark_safe a (AI.mark_safe b st) = AI.mark_safe b (AI.mark_safe a st) ∧
  AI.mark_mine a (AI.mark_mine a st) = AI.mark_mine a st ∧
  AI.mark_safe a (AI.mark_safe a st) = AI.mark_safe a st.
Proof.
  intros Hab. unfold AI.mark_mine, AI.mark_safe. simpl.
  split_and!; f_equal; try set_solver;
    rewrite <- !list_fmap_compose; apply list_fmap_ext; intros _ x _; simpl.
  - by apply mark_mine_safe_comm.
  - apply mark_mine_mine_comm.
  - apply mark_safe_safe_comm.
  - apply mark_mine_again.
  - apply mark_safe_again.
Qed.

(** An instance: (0,0) a mine and (0,3) safe, in a state with the
    sentence {(0,0),(0,3),(3,3)} = 2. *)
Lemma marks_commute_witness :
  AI.mark_mine (0, 0)
    (AI.mark_safe (0, 3)
       (AI.mk 4 4 ∅ ∅ ∅ [Sentence.mk {[ (0, 0); (0, 3); (3, 3) ]} 2])) =
  AI.mark_safe (0, 3)
    (AI.mark_mine (0, 0)
       (AI.mk 4 4 ∅ ∅ ∅ [Sentence.mk {[ (0, 0); (0, 3); (3, 3) ]} 2])).
Proof.
  refine (proj1 (marks_commute (0, 0) (0, 3) _ _)). done.
Defined.
